(** * micro-memoize: the cache engine, embedded and verified

    The development follows the two source files of the repository.

    - [Utils] embeds [src/utils.js]: the element-wise key matcher, the linear
      key locator, the key-transform wrapper, SameValueZero, the array
      move-to-front loop and the promise handler.
    - [Imported] holds the helpers that [src/index.ts] imports from
      ['./utils'] with a signature that [src/utils.js] does not provide.
    - [Index] embeds [src/index.ts]: the construction function and the
      memoized callable.

    JavaScript arrays are lists; an index that reads as [undefined] or a write
    that would leave a hole makes the operation return [None].  The sentinel
    [-1] of the key locator is [None], an index is [Some i]; [maxSize] is a
    natural number.  The three hooks are observers: firing one appends an
    event carrying the cache it was handed to the trace, and neither changes
    the cache nor throws; a hook that is not configured leaves no event.  The
    wrapped function returns normally and does not call the memoized callable
    itself; it may be stateful: its result may depend on the argument lists it
    has been invoked with before, and every invocation is recorded in the
    trace.  With [isPromise] set the wrapped function returns promises, which
    settle between calls: a settlement is an action of its own, running the
    handlers that were attached when the promise was cached. *)

From stdpp Require Import base option list.

Set Implicit Arguments.

(** ** Data model *)

(** A key as the cache stores and compares it.  Keys are normally arrays
    ([KArray]); [transformKey] may return any other value [a], whose
    [indexed] view lists its elements when it has a numeric [length] (the
    characters of a string) and is [None] when its [length] reads
    [undefined] (a number, a boolean, a plain object). *)
Inductive Key (A : Type) : Type :=
  | KArray (elems : list A)
  | KValue (a : A) (indexed : option (list A)).

Arguments KArray {A} elems.
Arguments KValue {A} a indexed.

(** A cached value: what the wrapped function returned ([Plain]), or the
    promise derived from it by [.then(..).catch(..)], whose rejection handler
    captured [key]. *)
Inductive Value (A R : Type) : Type :=
  | Plain (r : R)
  | Chained (v : Value A R) (key : Key A).

Arguments Plain {A R} r.
Arguments Chained {A R} v key.

(** The cache store: two sequences indexed in lock-step. *)
Record Cache (A R : Type) : Type := mkCache {
  keys : list (Key A);
  values : list (Value A R)
}.

Arguments mkCache {A R} keys values.
Arguments keys {A R} _.
Arguments values {A R} _.

(** [get size() { return cache.keys.length }] *)
Definition size {A R} (cache : Cache A R) : nat := length (keys cache).

(** What the outside world sees of a run. *)
Inductive Event (A R : Type) : Type :=
  | Invoked (args : list A)
  | CacheAdd (cache : Cache A R)
  | CacheChange (cache : Cache A R)
  | CacheHit (cache : Cache A R).

Arguments Invoked {A R} args.
Arguments CacheAdd {A R} cache.
Arguments CacheChange {A R} cache.
Arguments CacheHit {A R} cache.

(** The normalized options.  A hook field is [true] when a callable is
    registered for it. *)
Record Options (A : Type) : Type := mkOptions {
  isEqual : A -> A -> bool;
  isMatchingKey : option (Key A -> Key A -> bool);
  isPromise : bool;
  maxSize : nat;
  onCacheAdd : bool;
  onCacheChange : bool;
  onCacheHit : bool;
  transformKey : option (list A -> Key A)
}.

(** The wrapped function: from the argument lists of its earlier invocations
    and the current arguments to its result. *)
Definition Fn (A R : Type) : Type := list (list A) -> list A -> R.

(** The memoized callable's mutable state together with the trace. *)
Record State (A R : Type) : Type := mkState {
  cache : Cache A R;
  trace : list (Event A R)
}.

Arguments mkState {A R} cache trace.
Arguments cache {A R} _.
Arguments trace {A R} _.

(** How a promise settles. *)
Inductive Settlement (T E : Type) : Type :=
  | Fulfilled (value : T)
  | Rejected (error : E).

Arguments Fulfilled {T E} value.
Arguments Rejected {T E} error.

(** The argument lists the wrapped function has been invoked with, oldest
    first. *)
Fixpoint invocations {A R} (t : list (Event A R)) : list (list A) :=
  match t with
  | [] => []
  | Invoked args :: t' => args :: invocations t'
  | _ :: t' => invocations t'
  end.

(** [hook(cache, options, memoized)] behind its [shouldUpdateOn..] guard. *)
Definition fire {A R} (registered : bool) (ev : Cache A R -> Event A R)
    (st : State A R) : State A R :=
  if registered then mkState (cache st) (trace st ++ [ev (cache st)]) else st.

(** [array[index] = x] on a dense array: in range it overwrites, at
    [array.length] it appends, beyond that it would leave a hole. *)
Definition array_set {X} (index : nat) (x : X) (array : list X)
    : option (list X) :=
  if decide (index < length array) then Some (<[index := x]> array)
  else if decide (index = length array) then Some (array ++ [x])
  else None.

(** ** [src/utils.js] *)

Module Utils.

Section WithTypes.
Context {A R : Type}.

(** [cloneArray]: a fresh array with the same elements. *)
Fixpoint cloneArray (arrayLike : list A) : list A :=
  match arrayLike with
  | [] => []
  | x :: rest => x :: cloneArray rest
  end.

(** [.length] of a key; [None] is [undefined]. *)
Definition keyLength (k : Key A) : option nat :=
  match k with
  | KArray elems => Some (length elems)
  | KValue _ indexed => length <$> indexed
  end.

(** The indexed elements of a key. *)
Definition keyElems (k : Key A) : list A :=
  match k with
  | KArray elems => elems
  | KValue _ indexed => default [] indexed
  end.

(** [keys1.length !== keys2.length] *)
Definition lengthsDiffer (l1 l2 : option nat) : bool :=
  match l1, l2 with
  | Some n1, Some n2 => negb (n1 =? n2)
  | None, None => false
  | _, _ => true
  end.

(** The loop of [areKeysEqual] over two element lists of one length. *)
Fixpoint allEqual (isEqual : A -> A -> bool) (keys1 keys2 : list A) : bool :=
  match keys1, keys2 with
  | x :: keys1', y :: keys2' =>
      if negb (isEqual x y) then false else allEqual isEqual keys1' keys2'
  | _, _ => true
  end.

(** [createAreKeysEqual(isEqual)] *)
Definition createAreKeysEqual (isEqual : A -> A -> bool)
    (keys1 keys2 : Key A) : bool :=
  if lengthsDiffer (keyLength keys1) (keyLength keys2) then false
  else allEqual isEqual (keyElems keys1) (keyElems keys2).

(** The scan of [getKeyIndex] with the key matcher it closes over. *)
Fixpoint scanKeys (areKeysEqual : Key A -> Key A -> bool)
    (allKeys : list (Key A)) (keysToMatch : Key A) : option nat :=
  match allKeys with
  | [] => None
  | k :: rest =>
      if areKeysEqual k keysToMatch then Some 0
      else S <$> scanKeys areKeysEqual rest keysToMatch
  end.

(** [createGetKeyIndex(isEqual)] *)
Definition createGetKeyIndex (isEqual : A -> A -> bool)
    (allKeys : list (Key A)) (keysToMatch : Key A) : option nat :=
  scanKeys (createAreKeysEqual isEqual) allKeys keysToMatch.

(** [createGetTransformedKey(transformKey)]:
    [Array.isArray(key) ? key : [key]] *)
Definition createGetTransformedKey (transformKey : list A -> Key A)
    (args : list A) : Key A :=
  match transformKey args with
  | KArray elems => KArray elems
  | KValue a _ => KArray [a]
  end.

(** [isSameValueZero], over a strict equality [===] on [A]. *)
Definition isSameValueZero (strictEquals : A -> A -> bool)
    (object1 object2 : A) : bool :=
  strictEquals object1 object2
  || (negb (strictEquals object1 object1)
      && negb (strictEquals object2 object2)).

(** The [while (index--)] loop of [orderByLru]. *)
Fixpoint shiftDown {X} (index : nat) (array : list X) : option (list X) :=
  match index with
  | 0 => Some array
  | S index' =>
      x ← array !! index';
      array' ← array_set (S index') x array;
      shiftDown index' array'
  end.

(** [orderByLru(array, value, startingIndex)] *)
Definition orderByLru {X} (array : list X) (value : X)
    (startingIndex : nat) : option (list X) :=
  shifted ← shiftDown startingIndex array;
  array_set 0 value shifted.

(** The continuation [setPromiseHandler] attaches with [.then]. *)
Definition onFulfilled {T E} (options : Options A) (st : State A R)
    (value : T) : State A R * Settlement T E :=
  let st1 := fire (onCacheHit options) CacheHit st in
  let st2 := fire (onCacheChange options) CacheChange st1 in
  (st2, Fulfilled value).

(** The handler [setPromiseHandler] attaches with [.catch]; [key] is the
    [cache.keys[0]] captured when the handler was attached. *)
Definition onRejected {T E} (getKeyIndex : list (Key A) -> Key A -> option nat)
    (key : Key A) (st : State A R) (error : E)
    : State A R * Settlement T E :=
  match getKeyIndex (keys (cache st)) key with
  | Some keyIndex =>
      (mkState (mkCache (delete keyIndex (keys (cache st)))
                        (delete keyIndex (values (cache st))))
               (trace st),
       Rejected error)
  | None => (st, Rejected error)
  end.

(** [setPromiseHandler(cache, options, getKeyIndex)] at the time of the
    call: [cache.values[0]] is replaced by the derived promise. *)
Definition setPromiseHandler (cache : Cache A R) : option (Cache A R) :=
  key ← keys cache !! 0;
  value ← values cache !! 0;
  values' ← array_set 0 (Chained value key) (values cache);
  Some (mkCache (keys cache) values').

(** What the derived promise does when the promise it was chained to
    settles: [.then(f).catch(g)] runs [f] on success and [g] on failure. *)
Definition settle {T E} (options : Options A)
    (getKeyIndex : list (Key A) -> Key A -> option nat) (key : Key A)
    (st : State A R) (outcome : Settlement T E)
    : State A R * Settlement T E :=
  match outcome with
  | Fulfilled value => onFulfilled options st value
  | Rejected error => onRejected getKeyIndex key st error
  end.

End WithTypes.

End Utils.

(** ** Helpers that [src/index.ts] imports and [src/utils.js] lacks *)

(** A function object as the construction function sees it.  [properties]
    is [Some (options, cache)] on a memoized callable, which carries the
    properties [cache], [isMemoized: true] and [options] that
    [Object.defineProperties] gives it, and [None] on any other function.
    [wrapped] is the function itself, or the function a memoized callable
    wraps. *)
Record Callable (A R : Type) : Type := mkCallable {
  wrapped : Fn A R;
  properties : option (Options A * Cache A R)
}.

Arguments mkCallable {A R} wrapped properties.

(** Any value handed to the construction function. *)
Inductive JsValue (A R : Type) : Type :=
  | NotAFunction
  | AFunction (c : Callable A R).

Arguments NotAFunction {A R}.
Arguments AFunction {A R} c.

Module Imported.

Section WithTypes.
Context {A R : Type}.

(** Modelled from the spec: [createGetKeyIndex(options)], which
    [src/index.ts] calls with the normalized options while [src/utils.js]
    only has the variant taking [isEqual].  Whole-key mode delegates to
    [isMatchingKey]; otherwise the element-wise matcher is used.  The scan is
    the one of [src/utils.js]. *)
Definition createGetKeyIndex (options : Options A)
    (allKeys : list (Key A)) (keysToMatch : Key A) : option nat :=
  match isMatchingKey options with
  | Some matches => Utils.scanKeys matches allKeys keysToMatch
  | None => Utils.createGetKeyIndex (isEqual options) allKeys keysToMatch
  end.

(** Modelled from the spec: the eviction step of the five-argument
    [orderByLru]: if the store is larger than [maxSize], entries are dropped
    from the tail of both sequences until its size is [maxSize]. *)
Definition evict (maxSize : nat) (cache : Cache A R) : Cache A R :=
  if decide (maxSize < size cache)
  then mkCache (take maxSize (keys cache)) (take maxSize (values cache))
  else cache.

(** Modelled from the spec: [orderByLru(cache, key, value, startingIndex,
    maxSize)], absent from [src/utils.js], whose [orderByLru] reorders one
    array and knows no capacity.  Both sequences get the shift-and-place of
    [src/utils.js], then the store is evicted down to [maxSize]. *)
Definition orderByLru (cache : Cache A R) (newKey : Key A)
    (newValue : Value A R) (startingIndex maxSize : nat)
    : option (Cache A R) :=
  keys' ← Utils.orderByLru (keys cache) newKey startingIndex;
  values' ← Utils.orderByLru (values cache) newValue startingIndex;
  Some (evict maxSize (mkCache keys' values')).

(** Modelled from the spec: [createUpdateAsyncCache(options)], absent from
    [src/utils.js]; it attaches the handlers of [setPromiseHandler] to the
    value at index 0, with the key locator of the same options. *)
Definition createUpdateAsyncCache (options : Options A)
    (cache : Cache A R) : option (Cache A R) :=
  Utils.setPromiseHandler cache.

(** The handlers attached by [createUpdateAsyncCache(options)], run when the
    wrapped function's promise settles. *)
Definition settle {T E} (options : Options A) (key : Key A)
    (st : State A R) (outcome : Settlement T E)
    : State A R * Settlement T E :=
  Utils.settle options (createGetKeyIndex options) key st outcome.

(** Modelled from the spec: [isFunction], absent from [src/utils.js]. *)
Definition isFunction (fn : JsValue A R) : bool :=
  match fn with
  | AFunction _ => true
  | NotAFunction => false
  end.

(** Modelled from the spec: [isMemoized], absent from [src/utils.js]: the
    detection of an input that is already a memoized callable, by the
    [isMemoized] property that the construction function defines. *)
Definition isMemoized (fn : JsValue A R) : bool :=
  match fn with
  | AFunction c => bool_decide (is_Some (properties c))
  | NotAFunction => false
  end.

End WithTypes.

End Imported.

(** ** [src/index.ts] *)

(** The options as the caller passes them: every field may be missing. *)
Record StandardOptions (A : Type) : Type := mkStandardOptions {
  opt_isEqual : option (A -> A -> bool);
  opt_isMatchingKey : option (Key A -> Key A -> bool);
  opt_isPromise : option bool;
  opt_maxSize : option nat;
  opt_onCacheAdd : bool;
  opt_onCacheChange : bool;
  opt_onCacheHit : bool;
  opt_transformKey : option (list A -> Key A)
}.

(** What the construction function does: it returns a value or throws
    [TypeError]. *)
Inductive Construction (A R : Type) : Type :=
  | Returned (fn : JsValue A R)
  | ThrewTypeError.

Arguments Returned {A R} fn.
Arguments ThrewTypeError {A R}.

(** What an action on the memoized callable's state yields: [None] when the
    JavaScript code would read an [undefined] slot as an entry or leave a hole
    in an array. *)
Definition Outcome (A R : Type) : Type :=
  option (option (Value A R) * State A R).

(** What happens to a memoized callable: it is called, or a promise it
    cached earlier settles and the handlers capturing [key] run. *)
Inductive Action (A T E : Type) : Type :=
  | Call (args : list A)
  | Settle (key : Key A) (outcome : Settlement T E).

Arguments Call {A T E} args.
Arguments Settle {A T E} key outcome.

Module Index.

Section WithTypes.
Context {A R : Type}.

(** [slice(arrayLike, start)] *)
Definition slice {X} (arrayLike : list X) (start : nat) : list X :=
  drop start arrayLike.

(** The destructuring of [options] with its defaults; [strictEquals] is
    [===] on [A]. *)
Definition normalize (strictEquals : A -> A -> bool)
    (options : StandardOptions A) : Options A :=
  {| isEqual := default (Utils.isSameValueZero strictEquals)
                        (opt_isEqual options);
     isMatchingKey := opt_isMatchingKey options;
     isPromise := default false (opt_isPromise options);
     maxSize := default 1 (opt_maxSize options);
     onCacheAdd := opt_onCacheAdd options;
     onCacheChange := opt_onCacheChange options;
     onCacheHit := opt_onCacheHit options;
     transformKey := opt_transformKey options |}.

(** [const keys = []; const values = []] *)
Definition emptyCache : Cache A R := mkCache [] [].

(** The state of a freshly constructed memoized callable. *)
Definition initial : State A R := mkState emptyCache [].

(** [createMemoizedFunction(fn, options)].  The custom options that
    [getCustomOptions] and [mergeOptions] carry over play no part in the
    engine and are left out. *)
Definition createMemoizedFunction (strictEquals : A -> A -> bool)
    (fn : JsValue A R) (options : StandardOptions A) : Construction A R :=
  if Imported.isMemoized fn then Returned fn
  else if negb (Imported.isFunction fn) then ThrewTypeError
  else
    match fn with
    | AFunction c =>
        let normalizedOptions := normalize strictEquals options in
        Returned (AFunction (mkCallable (wrapped c)
                                        (Some (normalizedOptions, emptyCache))))
    | NotAFunction => ThrewTypeError (* not reached: [isFunction fn] holds *)
    end.

(** [!!(transformKey || isMatchingKey)] *)
Definition shouldCloneArguments (options : Options A) : bool :=
  bool_decide (is_Some (transformKey options))
  || bool_decide (is_Some (isMatchingKey options)).

(** The key a call looks up:
    [canTransformKey ? transformKey(normalizedArgs) : normalizedArgs]. *)
Definition lookupKey (options : Options A) (args : list A) : Key A :=
  let normalizedArgs :=
    if shouldCloneArguments options then slice args 0 else args in
  match transformKey options with
  | Some transform => transform normalizedArgs
  | None => KArray normalizedArgs
  end.

(** The body of [memoized]. *)
Definition memoized (options : Options A) (fn : Fn A R) (st : State A R)
    (args : list A) : Outcome A R :=
  let key := lookupKey options args in
  let keyIndex :=
    match length (keys (cache st)) with
    | 0 => None
    | S _ => Imported.createGetKeyIndex options (keys (cache st)) key
    end in
  match keyIndex with
  | Some keyIndex =>
      let st1 := fire (onCacheHit options) CacheHit st in
      match keyIndex with
      | 0 => Some (values (cache st1) !! 0, st1)
      | S _ =>
          k ← keys (cache st1) !! keyIndex;
          v ← values (cache st1) !! keyIndex;
          cache' ← Imported.orderByLru (cache st1) k v keyIndex
                                       (maxSize options);
          let st2 :=
            fire (onCacheChange options) CacheChange
                 (mkState cache' (trace st1)) in
          Some (values (cache st2) !! 0, st2)
      end
  | None =>
      let newValue := fn (invocations (trace st)) args in
      let st1 := mkState (cache st) (trace st ++ [Invoked args]) in
      let newKey :=
        if shouldCloneArguments options then key
        else KArray (slice args 0) in
      cache1 ← Imported.orderByLru (cache st1) newKey (Plain newValue)
                                   (length (keys (cache st1)))
                                   (maxSize options);
      cache2 ← (if isPromise options
                then Imported.createUpdateAsyncCache options cache1
                else Some cache1);
      let st2 := fire (onCacheAdd options) CacheAdd
                      (mkState cache2 (trace st1)) in
      let st3 := fire (onCacheChange options) CacheChange st2 in
      Some (values (cache st3) !! 0, st3)
  end.

(** One action on the memoized callable.  A settlement is accepted for any
    key at any time, which covers every order in which the promises cached so
    far can settle. *)
Definition step {T E} (options : Options A) (fn : Fn A R) (st : State A R)
    (a : Action A T E) : option (State A R) :=
  match a with
  | Call args => snd <$> memoized options fn st args
  | Settle key outcome => Some (fst (Imported.settle options key st outcome))
  end.

(** A sequence of actions, oldest first. *)
Fixpoint run {T E} (options : Options A) (fn : Fn A R) (st : State A R)
    (actions : list (Action A T E)) : option (State A R) :=
  match actions with
  | [] => Some st
  | a :: rest => st' ← step options fn st a; run options fn st' rest
  end.

End WithTypes.

End Index.

(** ** Notions used in the statements *)

Section Notions.
Context {A R : Type}.

(** The key matcher that the locator of [options] closes over. *)
Definition keyMatcher (options : Options A) : Key A -> Key A -> bool :=
  match isMatchingKey options with
  | Some matches => matches
  | None => Utils.createAreKeysEqual (isEqual options)
  end.

(** The two sequences of the store have one length. *)
Definition inLockStep (cache : Cache A R) : Prop :=
  length (values cache) = length (keys cache).

(** The events of one guarded hook call. *)
Definition hookEvents (registered : bool) (ev : Cache A R -> Event A R)
    (cache : Cache A R) : list (Event A R) :=
  if registered then [ev cache] else [].

(** The value a new entry holds once the call that created it returns: the
    result of the wrapped function, or the promise derived from it. *)
Definition cachedValue (options : Options A) (key : Key A) (newValue : R)
    : Value A R :=
  if isPromise options then Chained (Plain newValue) key else Plain newValue.

(** No two stored keys match each other. *)
Definition noDuplicates (matches : Key A -> Key A -> bool)
    (allKeys : list (Key A)) : Prop :=
  forall i j ki kj,
    allKeys !! i = Some ki -> allKeys !! j = Some kj -> i <> j ->
    matches ki kj = false.

(** The store after a call missed and inserted [key]. *)
Definition inserted (options : Options A) (key : Key A) (newValue : R)
    (cache : Cache A R) : Cache A R :=
  mkCache (take (maxSize options) (key :: keys cache))
          (take (maxSize options)
                (cachedValue options key newValue :: values cache)).

(** The store after a call matched the entry ([key], [value]) at [index] and
    moved it to the front. *)
Definition promoted (options : Options A) (index : nat) (key : Key A)
    (value : Value A R) (cache : Cache A R) : Cache A R :=
  mkCache (take (maxSize options) (key :: delete index (keys cache)))
          (take (maxSize options) (value :: delete index (values cache))).

(** The store invariant: lock-step sequences within the capacity. *)
Definition withinCapacity (options : Options A) (cache : Cache A R) : Prop :=
  inLockStep cache /\ size cache <= maxSize options.

#[export] Instance inLockStep_dec (cache : Cache A R) :
  Decision (inLockStep cache).
Proof. unfold inLockStep. apply _. Defined.

#[export] Instance withinCapacity_dec (options : Options A)
    (cache : Cache A R) : Decision (withinCapacity options cache).
Proof. unfold withinCapacity. apply _. Defined.

(** The key matcher gives one answer for a pair of keys in either order. *)
Definition symmetricMatcher (matches : Key A -> Key A -> bool) : Prop :=
  forall k1 k2, matches k1 k2 = matches k2 k1.

End Notions.

(** ** Concrete instances *)

(** Numbers as arguments, compared by value, a store of two entries and all
    three hooks registered. *)
Definition exampleOptions : Options nat :=
  {| isEqual := Nat.eqb;
     isMatchingKey := None;
     isPromise := false;
     maxSize := 2;
     onCacheAdd := true;
     onCacheChange := true;
     onCacheHit := true;
     transformKey := None |}.

(** The same store caching promises, without hooks. *)
Definition promiseOptions : Options nat :=
  {| isEqual := Nat.eqb;
     isMatchingKey := None;
     isPromise := true;
     maxSize := 2;
     onCacheAdd := false;
     onCacheChange := false;
     onCacheHit := false;
     transformKey := None |}.

(** A stateful wrapped function: the sum of its arguments plus a hundred
    for each earlier invocation. *)
Definition exampleFn : Fn nat nat :=
  fun earlier args => length earlier * 100 + foldr Nat.add 0 args.

(** A whole-key predicate: two keys match when their lengths agree. *)
Definition sameLength (keyA keyB : Key nat) : bool :=
  negb (Utils.lengthsDiffer (Utils.keyLength keyA) (Utils.keyLength keyB)).

(** Whole-key matching by [sameLength]. *)
Definition wholeKeyOptions : Options nat :=
  {| isEqual := Nat.eqb;
     isMatchingKey := Some sameLength;
     isPromise := false;
     maxSize := 2;
     onCacheAdd := false;
     onCacheChange := false;
     onCacheHit := false;
     transformKey := None |}.

(** [args => args[0]] on numbers: the first argument itself, a value
    without a [length]. *)
Definition firstArgument (args : list nat) : Key nat :=
  KValue (default 0 (args !! 0)) None.

(** Keys transformed by [firstArgument], matched element-wise. *)
Definition transformOptions : Options nat :=
  {| isEqual := Nat.eqb;
     isMatchingKey := None;
     isPromise := false;
     maxSize := 2;
     onCacheAdd := false;
     onCacheChange := false;
     onCacheHit := false;
     transformKey := Some firstArgument |}.

(** The caller asks for a store of five entries with an add hook. *)
Definition exampleStandardOptions : StandardOptions nat :=
  {| opt_isEqual := None;
     opt_isMatchingKey := None;
     opt_isPromise := None;
     opt_maxSize := Some 5;
     opt_onCacheAdd := true;
     opt_onCacheChange := false;
     opt_onCacheHit := false;
     opt_transformKey := None |}.

(** The caller passes no options at all. *)
Definition noOptions : StandardOptions nat :=
  {| opt_isEqual := None;
     opt_isMatchingKey := None;
     opt_isPromise := None;
     opt_maxSize := None;
     opt_onCacheAdd := false;
     opt_onCacheChange := false;
     opt_onCacheHit := false;
     opt_transformKey := None |}.

(** The state of a promise-caching callable after calls with [1] and [2]. *)
Definition promiseState : State nat nat :=
  mkState (mkCache [KArray [2]; KArray [1]]
                   [Chained (Plain 102) (KArray [2]);
                    Chained (Plain 1) (KArray [1])])
          [Invoked [1]; Invoked [2]].

(** Promises cached one at a time, with the hit and change hooks
    registered. *)
Definition observedPromiseOptions : Options nat :=
  {| isEqual := Nat.eqb;
     isMatchingKey := None;
     isPromise := true;
     maxSize := 2;
     onCacheAdd := false;
     onCacheChange := true;
     onCacheHit := true;
     transformKey := None |}.

(** A store holding the results for the argument lists [2] and [1]. *)
Definition exampleCache : Cache nat nat :=
  mkCache [KArray [2]; KArray [1]] [Plain 102; Plain 1].

(** ** Notions used in the further properties *)

(** Strict equality on numbers with a not-a-number value: [None] is [NaN],
    which [===] never finds equal to anything, itself included. *)
Definition numberEquals (x y : option nat) : bool :=
  match x, y with
  | Some a, Some b => a =? b
  | _, _ => false
  end.

(** The argument lists of the calls among [actions], oldest first. *)
Fixpoint callArgs {A T E} (actions : list (Action A T E)) : list (list A) :=
  match actions with
  | [] => []
  | Call args :: rest => args :: callArgs rest
  | Settle _ _ :: rest => callArgs rest
  end.


(** How often the add hook has fired. *)
Fixpoint addEvents {A R} (t : list (Event A R)) : nat :=
  match t with
  | [] => 0
  | CacheAdd _ :: t' => S (addEvents t')
  | _ :: t' => addEvents t'
  end.

(** * Verification *)

Unset Implicit Arguments.

(** ** Arrays: writes and the move-to-front loop *)

Section Arrays.
Context {X : Type}.
Implicit Types (array : list X) (x value : X) (index : nat).

Lemma array_set_le index x array :
  index ≤ length array →
  array_set index x array = Some (take index array ++ x :: drop (S index) array).
Proof.
  intros Hle. unfold array_set.
  destruct (decide (index < length array)) as [Hlt|Hge].
  - by rewrite insert_take_drop.
  - assert (index = length array) as -> by lia.
    rewrite decide_True by done.
    rewrite take_ge, drop_ge by lia. done.
Qed.

Lemma array_set_gt index x array :
  length array < index → array_set index x array = None.
Proof.
  intros Hgt. unfold array_set.
  rewrite decide_False by lia. by rewrite decide_False by lia.
Qed.

Lemma array_set_0 x array : array_set 0 x array = Some (x :: drop 1 array).
Proof. rewrite array_set_le by lia. done. Qed.

Lemma shiftDown_le index array :
  index ≤ length array →
  ∃ shifted, Utils.shiftDown index array = Some shifted
             ∧ drop 1 shifted = take index array ++ drop (S index) array.
Proof.
  revert array. induction index as [|index IH]; intros array Hle.
  - exists array. by destruct array.
  - destruct (lookup_lt_is_Some_2 array index) as [x Hx]; [lia|].
    cbn [Utils.shiftDown]. rewrite Hx. cbn [mbind option_bind].
    rewrite array_set_le by done. cbn [mbind option_bind].
    set (array' := take (S index) array ++ x :: drop (S (S index)) array).
    assert (length (take (S index) array) = S index) as Hlen
      by (rewrite length_take; lia).
    destruct (IH array') as (shifted & -> & Hshifted).
    { unfold array'. rewrite length_app. lia. }
    exists shifted. split; [done|]. rewrite Hshifted. unfold array'.
    rewrite take_app_le by lia. rewrite take_take.
    replace (index `min` S index) with index by lia.
    rewrite drop_app_length' by done.
    rewrite (take_S_r array index x) by done.
    by rewrite <- app_assoc.
Qed.

Lemma shiftDown_gt index array :
  length array < index → Utils.shiftDown index array = None.
Proof.
  destruct index as [|index]; [lia|]. intros Hgt. cbn [Utils.shiftDown].
  destruct (array !! index) as [x|] eqn:Hx; [|done].
  cbn [mbind option_bind].
  apply lookup_lt_Some in Hx. lia.
Qed.

(** The closed form of [orderByLru] on one array. *)
Lemma orderByLru_le array value index :
  index ≤ length array →
  Utils.orderByLru array value index = Some (value :: delete index array).
Proof.
  intros Hle. unfold Utils.orderByLru.
  destruct (shiftDown_le index array Hle) as (shifted & -> & Hshifted).
  cbn [mbind option_bind]. rewrite array_set_0, Hshifted.
  by rewrite delete_take_drop.
Qed.

Lemma orderByLru_gt array value index :
  length array < index → Utils.orderByLru array value index = None.
Proof.
  intros Hgt. unfold Utils.orderByLru. by rewrite shiftDown_gt.
Qed.

Lemma delete_beyond index array : length array ≤ index → delete index array = array.
Proof.
  intros Hle. rewrite delete_take_drop, take_ge, drop_ge by lia.
  apply app_nil_r.
Qed.

Lemma length_delete_cons x index array :
  length (x :: delete index array)
  = if decide (index < length array) then length array else S (length array).
Proof.
  cbn [length]. destruct (decide (index < length array)) as [Hlt|Hge].
  - rewrite length_delete by (apply lookup_lt_is_Some; lia). lia.
  - rewrite delete_beyond by lia. done.
Qed.

End Arrays.

(** ** The key locator *)

Section Locator.
Context {A : Type}.
Implicit Types (matches : Key A → Key A → bool) (allKeys : list (Key A)).
Implicit Types (key keysToMatch : Key A).

Lemma scanKeys_Some matches allKeys keysToMatch index :
  Utils.scanKeys matches allKeys keysToMatch = Some index ↔
  ∃ key, allKeys !! index = Some key
         ∧ matches key keysToMatch = true
         ∧ ∀ j earlier, j < index → allKeys !! j = Some earlier →
                        matches earlier keysToMatch = false.
Proof.
  revert index. induction allKeys as [|k rest IH]; intros index; cbn.
  - split; [done|]. by intros (key & Hkey & _).
  - destruct (matches k keysToMatch) eqn:Hk.
    + split.
      * intros [= <-]. exists k. repeat split; [done|]. intros; lia.
      * intros (key & Hkey & Hm & Hfirst). destruct index as [|index]; [done|].
        specialize (Hfirst 0 k). rewrite Hfirst in Hk; [done|lia|done].
    + rewrite fmap_Some. split.
      * intros (i & Hi & ->). apply IH in Hi as (key & Hkey & Hm & Hfirst).
        exists key. repeat split; [done..|].
        intros [|j] earlier Hj Hearlier; cbn in Hearlier.
        -- by injection Hearlier as <-.
        -- apply (Hfirst j); [lia|done].
      * intros (key & Hkey & Hm & Hfirst). destruct index as [|index].
        -- cbn in Hkey. injection Hkey as <-. congruence.
        -- exists index. split; [|done]. apply IH. exists key.
           repeat split; [done..|]. intros j earlier Hj Hearlier.
           apply (Hfirst (S j)); [lia|done].
Qed.

Lemma scanKeys_None matches allKeys keysToMatch :
  Utils.scanKeys matches allKeys keysToMatch = None ↔
  ∀ key, key ∈ allKeys → matches key keysToMatch = false.
Proof.
  induction allKeys as [|k rest IH]; cbn.
  - split; [|done]. intros _ key Hin. by apply elem_of_nil in Hin.
  - destruct (matches k keysToMatch) eqn:Hk.
    + split; [done|]. intros Hall. rewrite Hall in Hk; [done|]. left.
    + rewrite fmap_None, IH. split.
      * intros Hall key [->|Hin]%elem_of_cons; auto.
      * intros Hall key Hin. apply Hall. by right.
Qed.

Lemma scanKeys_lt matches allKeys keysToMatch index :
  Utils.scanKeys matches allKeys keysToMatch = Some index →
  index < length allKeys.
Proof.
  intros (key & Hkey & _)%scanKeys_Some. by apply lookup_lt_Some in Hkey.
Qed.

Lemma createGetKeyIndex_scan (options : Options A) allKeys keysToMatch :
  Imported.createGetKeyIndex options allKeys keysToMatch
  = Utils.scanKeys (keyMatcher options) allKeys keysToMatch.
Proof.
  unfold Imported.createGetKeyIndex, keyMatcher, Utils.createGetKeyIndex.
  by destruct (isMatchingKey options).
Qed.

End Locator.

(** ** The store operations *)

Section Store.
Context {A R : Type}.
Implicit Types (cache : Cache A R) (st : State A R) (options : Options A).
Implicit Types (key : Key A) (value : Value A R).

Lemma fire_eq registered ev st :
  fire registered ev st
  = mkState (cache st) (trace st ++ hookEvents registered ev (cache st)).
Proof.
  unfold fire, hookEvents. destruct registered; [done|].
  rewrite app_nil_r. by destruct st.
Qed.

Lemma evict_take maxSize cache :
  inLockStep cache →
  Imported.evict maxSize cache
  = mkCache (take maxSize (keys cache)) (take maxSize (values cache)).
Proof.
  unfold inLockStep, Imported.evict, size. intros Hlen.
  destruct (decide (maxSize < length (keys cache))); [done|].
  rewrite !take_ge by lia. by destruct cache.
Qed.

(** The closed form of the five-argument [orderByLru]. *)
Lemma orderByLru_cache cache key value index maxSize :
  inLockStep cache → index ≤ size cache →
  Imported.orderByLru cache key value index maxSize
  = Some (mkCache (take maxSize (key :: delete index (keys cache)))
                  (take maxSize (value :: delete index (values cache)))).
Proof.
  unfold inLockStep, size. intros Hlen Hle. unfold Imported.orderByLru.
  rewrite !orderByLru_le by lia. cbn [mbind option_bind].
  rewrite evict_take; [done|]. unfold inLockStep. cbn [keys values].
  rewrite !length_delete_cons, Hlen. done.
Qed.

Lemma inLockStep_take maxSize key value cache index :
  inLockStep cache →
  inLockStep (mkCache (take maxSize (key :: delete index (keys cache)))
                      (take maxSize (value :: delete index (values cache)))).
Proof.
  unfold inLockStep. cbn [keys values]. intros Hlen.
  rewrite !length_take, !length_delete_cons, Hlen. done.
Qed.

End Store.

(** ** The memoized callable, case by case *)

Section Memoized.
Context {A R : Type}.
Implicit Types (cache : Cache A R) (st : State A R) (options : Options A).
Implicit Types (fn : Fn A R) (args : list A).

Lemma newKey_lookupKey options args :
  (if Index.shouldCloneArguments options then Index.lookupKey options args
   else KArray (Index.slice args 0))
  = Index.lookupKey options args.
Proof.
  unfold Index.lookupKey, Index.shouldCloneArguments, Index.slice.
  destruct (transformKey options), (isMatchingKey options); done.
Qed.

Lemma keyIndex_guard options (allKeys : list (Key A)) (key : Key A) :
  match length allKeys with
  | 0 => None
  | S _ => Imported.createGetKeyIndex options allKeys key
  end = Imported.createGetKeyIndex options allKeys key.
Proof.
  destruct allKeys; [|done]. rewrite createGetKeyIndex_scan. done.
Qed.

(** A call whose key matches no stored key. *)
Lemma memoized_miss options fn st args :
  inLockStep (cache st) → 1 ≤ maxSize options →
  Imported.createGetKeyIndex options (keys (cache st))
                             (Index.lookupKey options args) = None →
  let key := Index.lookupKey options args in
  let newValue := fn (invocations (trace st)) args in
  let cache' := inserted options key newValue (cache st) in
  Index.memoized options fn st args
  = Some (Some (cachedValue options key newValue),
          mkState cache'
            (trace st ++ Invoked args
               :: hookEvents (onCacheAdd options) CacheAdd cache'
               ++ hookEvents (onCacheChange options) CacheChange cache')).
Proof.
  intros Hlen Hmax Hnone key newValue cache'.
  unfold Index.memoized. rewrite keyIndex_guard, Hnone, newKey_lookupKey.
  cbn [cache trace]. rewrite orderByLru_cache by (done || unfold size; lia).
  cbn [mbind option_bind].
  rewrite !delete_beyond by (unfold inLockStep in Hlen; lia).
  fold key newValue. unfold cache', inserted, cachedValue.
  destruct (maxSize options) as [|m]; [lia|]. cbn [take].
  destruct (isPromise options); cbn [mbind option_bind].
  - unfold Imported.createUpdateAsyncCache, Utils.setPromiseHandler.
    cbn [keys values lookup list_lookup mbind option_bind].
    rewrite array_set_0. cbn [mbind option_bind keys values drop].
    rewrite !fire_eq. cbn [cache trace keys values lookup list_lookup].
    rewrite <- !app_assoc. done.
  - rewrite !fire_eq. cbn [cache trace keys values lookup list_lookup].
    rewrite <- !app_assoc. done.
Qed.

(** A call whose key matches the entry at the front. *)
Lemma memoized_front options fn st args :
  Imported.createGetKeyIndex options (keys (cache st))
                             (Index.lookupKey options args) = Some 0 →
  Index.memoized options fn st args
  = Some (values (cache st) !! 0,
          mkState (cache st)
            (trace st ++ hookEvents (onCacheHit options) CacheHit (cache st))).
Proof.
  intros Hfound. unfold Index.memoized. rewrite keyIndex_guard, Hfound.
  rewrite fire_eq. done.
Qed.

(** A call whose key matches an entry behind the front. *)
Lemma memoized_promote options fn st args index key value :
  inLockStep (cache st) → 1 ≤ maxSize options →
  Imported.createGetKeyIndex options (keys (cache st))
                             (Index.lookupKey options args) = Some (S index) →
  keys (cache st) !! S index = Some key →
  values (cache st) !! S index = Some value →
  let cache' := promoted options (S index) key value (cache st) in
  Index.memoized options fn st args
  = Some (Some value,
          mkState cache'
            (trace st ++ hookEvents (onCacheHit options) CacheHit (cache st)
                      ++ hookEvents (onCacheChange options) CacheChange cache')).
Proof.
  intros Hlen Hmax Hfound Hkey Hvalue cache'.
  unfold Index.memoized. rewrite keyIndex_guard, Hfound.
  rewrite !fire_eq. cbn [cache trace]. rewrite Hkey, Hvalue.
  cbn [mbind option_bind].
  rewrite orderByLru_cache
    by (done || unfold size; apply lookup_lt_Some in Hkey; lia).
  cbn [mbind option_bind]. rewrite !fire_eq. cbn [cache trace].
  fold (promoted options (S index) key value (cache st)). fold cache'.
  rewrite <- app_assoc.
  unfold cache' at 1, promoted. cbn [values].
  destruct (maxSize options) as [|m]; [lia|]. done.
Qed.

(** The entry a successful key lookup points at. *)
Lemma located_entry options cache (key : Key A) index :
  inLockStep cache →
  Imported.createGetKeyIndex options (keys cache) key = Some index →
  ∃ k v, keys cache !! index = Some k ∧ values cache !! index = Some v
         ∧ keyMatcher options k key = true.
Proof.
  intros Hlen Hfound. rewrite createGetKeyIndex_scan in Hfound.
  pose proof (scanKeys_lt _ _ _ _ Hfound) as Hlt.
  apply scanKeys_Some in Hfound as (k & Hk & Hm & _).
  destruct (lookup_lt_is_Some_2 (values cache) index) as [v Hv].
  { unfold inLockStep in Hlen. lia. }
  by exists k, v.
Qed.

End Memoized.

(** The three ways a call can go, each rewritten to its closed form; a
    matched entry is named [key0], [value0]. *)
Ltac call_cases options st args Hlen :=
  destruct (Imported.createGetKeyIndex options (keys (cache st))
              (Index.lookupKey options args)) as [[|index]|] eqn:Hfound;
  [ destruct (located_entry _ _ _ _ Hlen Hfound)
      as (key0 & value0 & Hkey0 & Hvalue0 & _);
    rewrite memoized_front by done
  | destruct (located_entry _ _ _ _ Hlen Hfound)
      as (key0 & value0 & Hkey0 & Hvalue0 & _);
    rewrite (memoized_promote _ _ _ _ index key0 value0) by done
  | rewrite memoized_miss by done ].

(** ** The element-wise key matcher *)

Section Matcher.
Context {A : Type}.
Implicit Types (isEqual : A → A → bool).

Lemma allEqual_true isEqual (keys1 keys2 : list A) :
  length keys1 = length keys2 →
  Utils.allEqual isEqual keys1 keys2 = true ↔
  ∀ index x y, keys1 !! index = Some x → keys2 !! index = Some y →
               isEqual x y = true.
Proof.
  revert keys2. induction keys1 as [|x keys1 IH]; intros [|y keys2] Hlen;
    try discriminate Hlen; cbn [Utils.allEqual].
  - split; [|done]. intros _ index x y Hx. by destruct index.
  - injection Hlen as Hlen. destruct (isEqual x y) eqn:Hxy; cbn [negb].
    + rewrite (IH keys2 Hlen). split.
      * intros Hall [|index] x' y' Hx' Hy'; cbn in Hx', Hy'.
        -- congruence.
        -- by apply (Hall index).
      * intros Hall index x' y' Hx' Hy'. by apply (Hall (S index)).
    + split; [done|]. intros Hall. rewrite <- Hxy. by apply (Hall 0).
Qed.

Lemma lengthsDiffer_Some (n1 n2 : nat) :
  Utils.lengthsDiffer (Some n1) (Some n2) = false ↔ n1 = n2.
Proof.
  cbn. rewrite negb_false_iff. apply Nat.eqb_eq.
Qed.

(** C6: two key sequences match under the element-wise matcher exactly when
    they have the same length and the equality strategy accepts the pair of
    elements at every index; two empty key sequences match. *)
Theorem C6_areKeysEqual_elementwise isEqual (keys1 keys2 : list A) :
  (Utils.createAreKeysEqual isEqual (KArray keys1) (KArray keys2) = true ↔
   length keys1 = length keys2
   ∧ ∀ index x y, keys1 !! index = Some x → keys2 !! index = Some y →
                  isEqual x y = true)
  ∧ Utils.createAreKeysEqual isEqual (KArray []) (KArray []) = true.
Proof.
  split; [|done]. unfold Utils.createAreKeysEqual.
  cbn [Utils.keyLength Utils.keyElems].
  destruct (Utils.lengthsDiffer _ _) eqn:Hdiffer.
  - split; [done|]. intros [Hlen _]. apply lengthsDiffer_Some in Hlen.
    congruence.
  - apply lengthsDiffer_Some in Hdiffer. rewrite allEqual_true by done.
    tauto.
Qed.

Lemma allEqual_symmetric isEqual (keys1 keys2 : list A) :
  (∀ x y, isEqual x y = isEqual y x) →
  Utils.allEqual isEqual keys1 keys2 = Utils.allEqual isEqual keys2 keys1.
Proof.
  intros Hsym. revert keys2.
  induction keys1 as [|x keys1 IH]; intros [|y keys2]; cbn; [done..|].
  by rewrite (Hsym x y), IH.
Qed.

(** The element-wise matcher is symmetric when the equality strategy is. *)
Lemma areKeysEqual_symmetric isEqual :
  (∀ x y, isEqual x y = isEqual y x) →
  symmetricMatcher (Utils.createAreKeysEqual isEqual).
Proof.
  intros Hsym k1 k2. unfold Utils.createAreKeysEqual.
  rewrite (allEqual_symmetric isEqual _ _ Hsym).
  assert (Utils.lengthsDiffer (Utils.keyLength k1) (Utils.keyLength k2)
          = Utils.lengthsDiffer (Utils.keyLength k2) (Utils.keyLength k1))
    as ->; [|done].
  destruct (Utils.keyLength k1) as [n1|], (Utils.keyLength k2) as [n2|];
    cbn; [|done..].
  by rewrite Nat.eqb_sym.
Qed.

End Matcher.

(** ** Invariants of the store *)

Section Invariants.
Context {A R : Type}.
Implicit Types (cache : Cache A R) (st : State A R) (options : Options A).
Implicit Types (fn : Fn A R) (args : list A) (key : Key A).

Lemma withinCapacity_inserted options key newValue cache :
  inLockStep cache → withinCapacity options (inserted options key newValue cache).
Proof.
  intros Hlen. split.
  - unfold inserted, inLockStep in *. cbn [keys values].
    rewrite !length_take. cbn [length]. lia.
  - unfold size, inserted. cbn [keys]. rewrite length_take. lia.
Qed.

Lemma withinCapacity_promoted options index key value cache :
  inLockStep cache → withinCapacity options (promoted options index key value cache).
Proof.
  intros Hlen. split.
  - unfold promoted. by apply inLockStep_take.
  - unfold size, promoted. cbn [keys]. rewrite length_take. lia.
Qed.

(** A call always returns, and keeps the store within its capacity. *)
Lemma memoized_withinCapacity options fn st args :
  1 ≤ maxSize options → withinCapacity options (cache st) →
  ∃ v st', Index.memoized options fn st args = Some (Some v, st')
           ∧ withinCapacity options (cache st')
           ∧ values (cache st') !! 0 = Some v.
Proof.
  intros Hmax [Hlen Hsize]. call_cases options st args Hlen.
  - rewrite Hvalue0. eexists _, _. split; [done|]. by split.
  - eexists _, _. split; [done|]. cbn [cache]. split.
    + by apply withinCapacity_promoted.
    + unfold promoted. cbn [values].
      destruct (maxSize options); [lia|done].
  - eexists _, _. split; [done|]. cbn [cache]. split.
    + by apply withinCapacity_inserted.
    + unfold inserted. cbn [values].
      destruct (maxSize options); [lia|done].
Qed.

(** Settling a promise keeps the store within its capacity. *)
Lemma settle_withinCapacity {T E} options key st (outcome : Settlement T E) :
  withinCapacity options (cache st) →
  withinCapacity options (cache (Imported.settle options key st outcome).1).
Proof.
  intros [Hlen Hsize]. unfold Imported.settle, Utils.settle.
  destruct outcome as [value|error].
  - unfold Utils.onFulfilled. rewrite !fire_eq. done.
  - unfold Utils.onRejected.
    destruct (Imported.createGetKeyIndex options (keys (cache st)) key)
      as [index|] eqn:Hfound; [|done].
    destruct (located_entry _ _ _ _ Hlen Hfound) as (k & v & Hk & Hv & _).
    cbn [fst cache]. unfold withinCapacity, inLockStep, size in *.
    cbn [keys values]. rewrite !length_delete by eauto. lia.
Qed.

Lemma step_withinCapacity {T E} options fn st (a : Action A T E) :
  1 ≤ maxSize options → withinCapacity options (cache st) →
  ∃ st', Index.step options fn st a = Some st'
         ∧ withinCapacity options (cache st').
Proof.
  intros Hmax Hinv. destruct a as [args|key outcome]; cbn [Index.step].
  - destruct (memoized_withinCapacity options fn st args Hmax Hinv)
      as (v & st' & -> & Hinv' & _).
    by exists st'.
  - eexists. split; [done|]. by apply settle_withinCapacity.
Qed.

Lemma run_withinCapacity {T E} options fn st (actions : list (Action A T E)) :
  1 ≤ maxSize options → withinCapacity options (cache st) →
  ∃ st', Index.run options fn st actions = Some st'
         ∧ withinCapacity options (cache st').
Proof.
  intros Hmax. revert st.
  induction actions as [|a rest IH]; intros st Hinv; cbn [Index.run].
  - by exists st.
  - destruct (step_withinCapacity options fn st a Hmax Hinv)
      as (st1 & -> & Hinv1).
    cbn [mbind option_bind]. by apply IH.
Qed.

Lemma initial_withinCapacity options :
  withinCapacity options (cache (@Index.initial A R)).
Proof. split; [done|]. unfold size. cbn. lia. Qed.

End Invariants.

(** ** The claims about capacity, promotion and hooks *)

Section Engine.
Context {A R : Type}.
Implicit Types (cache : Cache A R) (st : State A R) (options : Options A).
Implicit Types (fn : Fn A R) (args : list A) (key : Key A).

(** C1: with [maxSize] at least 1, every sequence of calls to the memoized
    callable (with the settlements of cached promises in between) runs to a
    state whose store holds at most [maxSize] keys and as many values; and an
    insertion that would make the store larger than [maxSize] leaves it at
    exactly [maxSize] entries, keys and values both cut from the tail. *)
Theorem C1_size_never_exceeds_maxSize {T E} options fn :
  1 ≤ maxSize options →
  (∀ actions : list (Action A T E),
     ∃ st, Index.run options fn Index.initial actions = Some st
           ∧ length (values (cache st)) = size (cache st)
           ∧ size (cache st) ≤ maxSize options)
  ∧ (∀ cache newKey (newValue : Value A R),
       inLockStep cache → maxSize options < S (size cache) →
       ∃ cache',
         Imported.orderByLru cache newKey newValue (size cache)
                             (maxSize options) = Some cache'
         ∧ keys cache' = take (maxSize options) (newKey :: keys cache)
         ∧ values cache' = take (maxSize options) (newValue :: values cache)
         ∧ size cache' = maxSize options
         ∧ length (values cache') = maxSize options).
Proof.
  intros Hmax. split.
  - intros actions.
    destruct (run_withinCapacity options fn Index.initial actions Hmax
                (initial_withinCapacity options)) as (st & Hrun & Hlen & Hsize).
    by exists st.
  - intros cache newKey newValue Hlen Hover.
    rewrite orderByLru_cache by done. eexists. split; [done|].
    rewrite !delete_beyond by (unfold inLockStep, size in *; lia).
    unfold size. cbn [keys values]. repeat split.
    + rewrite length_take. cbn [length]. unfold size in Hover. lia.
    + rewrite length_take. cbn [length].
      unfold inLockStep, size in *. lia.
Qed.

(** C3: on one array, [orderByLru] with a source index inside the array
    puts the value at index 0, moves the elements before the source index one
    slot toward the tail and leaves the elements behind it where they were;
    so does the promotion of a matched entry on both sequences of a store
    within its capacity; and after any call of the memoized callable the
    matched or inserted entry is at index 0 and its value is what the call
    returns. *)
Theorem C3_promotion_moves_entry_to_front :
  (∀ (X : Type) (array : list X) (value : X) sourceIndex,
     0 < sourceIndex < length array →
     ∃ array', Utils.orderByLru array value sourceIndex = Some array'
       ∧ array' !! 0 = Some value
       ∧ (∀ j, j < sourceIndex → array' !! S j = array !! j)
       ∧ (∀ j, sourceIndex < j → array' !! j = array !! j)
       ∧ length array' = length array)
  ∧ (∀ cache key (value : Value A R) sourceIndex capacity,
       inLockStep cache → size cache ≤ capacity →
       0 < sourceIndex < size cache →
       keys cache !! sourceIndex = Some key →
       values cache !! sourceIndex = Some value →
       ∃ cache',
         Imported.orderByLru cache key value sourceIndex capacity = Some cache'
         ∧ keys cache' !! 0 = Some key ∧ values cache' !! 0 = Some value
         ∧ (∀ j, j < sourceIndex →
                 keys cache' !! S j = keys cache !! j
                 ∧ values cache' !! S j = values cache !! j)
         ∧ (∀ j, sourceIndex < j →
                 keys cache' !! j = keys cache !! j
                 ∧ values cache' !! j = values cache !! j)
         ∧ size cache' = size cache ∧ inLockStep cache')
  ∧ (∀ options fn st args,
       1 ≤ maxSize options → withinCapacity options (cache st) →
       ∃ v st',
         Index.memoized options fn st args = Some (Some v, st')
         ∧ values (cache st') !! 0 = Some v
         ∧ match Imported.createGetKeyIndex options (keys (cache st))
                   (Index.lookupKey options args) with
           | Some index =>
               keys (cache st') !! 0 = keys (cache st) !! index
               ∧ values (cache st') !! 0 = values (cache st) !! index
           | None =>
               keys (cache st') !! 0 = Some (Index.lookupKey options args)
               ∧ v = cachedValue options (Index.lookupKey options args)
                                  (fn (invocations (trace st)) args)
           end).
Proof.
  assert (∀ (X : Type) (array : list X) (value : X) sourceIndex,
            sourceIndex < length array →
            let array' := value :: delete sourceIndex array in
            (∀ j, j < sourceIndex → array' !! S j = array !! j)
            ∧ (∀ j, sourceIndex < j → array' !! j = array !! j)
            ∧ length array' = length array) as Hshape.
  { intros X array value sourceIndex Hlt array'. unfold array'. repeat split.
    - intros j Hj. cbn. by apply list_lookup_delete_lt.
    - intros [|j] Hj; [lia|]. cbn. apply list_lookup_delete_ge. lia.
    - rewrite length_delete_cons. by rewrite decide_True. }
  split; [|split].
  - intros X array value sourceIndex [Hpos Hlt].
    rewrite orderByLru_le by lia. eexists. split; [done|].
    split; [done|]. by apply Hshape.
  - intros cache key value sourceIndex capacity Hlen Hsize [Hpos Hlt] Hkey Hvalue.
    rewrite orderByLru_cache by (done || lia). eexists. split; [done|].
    unfold inLockStep, size in *. cbn [keys values].
    destruct (Hshape _ (keys cache) key sourceIndex) as (Hk1 & Hk2 & Hk3);
      [lia|].
    destruct (Hshape _ (values cache) value sourceIndex) as (Hv1 & Hv2 & Hv3);
      [lia|].
    rewrite !take_ge by lia. repeat split; auto. lia.
  - intros options fn st args Hmax [Hlen Hsize].
    call_cases options st args Hlen.
    + rewrite Hvalue0. by eexists _, _.
    + eexists _, _. split; [done|]. unfold promoted. cbn [cache keys values].
      rewrite Hkey0, Hvalue0. destruct (maxSize options); [lia|done].
    + eexists _, _. split; [done|]. unfold inserted. cbn [cache keys values].
      destruct (maxSize options); [lia|done].
Qed.

(** C9: a call that creates a new entry invokes the wrapped function and
    fires add, then change, on the store with the new entry; a call that
    matches an entry behind the front fires hit on the store as found, then
    change on the reordered store; a call that matches the front entry fires
    hit only and leaves the store as it is.  A hook that is not registered
    leaves no event. *)
Theorem C9_hook_order options fn st args :
  1 ≤ maxSize options → inLockStep (cache st) →
  ∃ v st',
    Index.memoized options fn st args = Some (v, st')
    ∧ match Imported.createGetKeyIndex options (keys (cache st))
              (Index.lookupKey options args) with
      | None =>
          trace st' = trace st ++ Invoked args
                        :: hookEvents (onCacheAdd options) CacheAdd (cache st')
                        ++ hookEvents (onCacheChange options) CacheChange
                                      (cache st')
      | Some 0 =>
          trace st' = trace st ++ hookEvents (onCacheHit options) CacheHit
                                             (cache st)
          ∧ cache st' = cache st
      | Some (S index) =>
          trace st' = trace st
                        ++ hookEvents (onCacheHit options) CacheHit (cache st)
                        ++ hookEvents (onCacheChange options) CacheChange
                                      (cache st')
      end.
Proof.
  intros Hmax Hlen. call_cases options st args Hlen; by eexists _, _.
Qed.

Lemma invocations_app (t1 t2 : list (Event A R)) :
  invocations (t1 ++ t2) = invocations t1 ++ invocations t2.
Proof.
  induction t1 as [|[] t1 IH]; cbn; [done|by f_equal|done..].
Qed.

Lemma invocations_hookEvents registered ev cache :
  (∀ c, ev c = CacheAdd c) ∨ (∀ c, ev c = CacheChange c)
  ∨ (∀ c, ev c = CacheHit c) →
  invocations (hookEvents registered ev cache) = [].
Proof.
  unfold hookEvents. destruct registered; [|done].
  intros [H|[H|H]]; by rewrite H.
Qed.

(** C2: when a call computes its result (its key matches no stored key) and
    the next call's key matches the first under the active key matcher, the
    two calls invoke the wrapped function exactly once, for the first; the
    second returns the very value the first returned and stored, fires hit
    alone (if registered) and leaves the store as it is. *)
Theorem C2_second_call_is_served_from_cache options fn st args1 args2 :
  1 ≤ maxSize options → inLockStep (cache st) →
  Imported.createGetKeyIndex options (keys (cache st))
                             (Index.lookupKey options args1) = None →
  keyMatcher options (Index.lookupKey options args1)
                     (Index.lookupKey options args2) = true →
  ∃ v st1 st2,
    Index.memoized options fn st args1 = Some (Some v, st1)
    ∧ Index.memoized options fn st1 args2 = Some (Some v, st2)
    ∧ invocations (trace st2) = invocations (trace st) ++ [args1]
    ∧ trace st2 = trace st1
                    ++ hookEvents (onCacheHit options) CacheHit (cache st1)
    ∧ cache st2 = cache st1.
Proof.
  intros Hmax Hlen Hmiss Hmatch.
  pose proof (memoized_miss options fn st args1 Hlen Hmax Hmiss) as Hfirst.
  cbv zeta in Hfirst.
  set (key := Index.lookupKey options args1) in *.
  set (newValue := fn (invocations (trace st)) args1) in *.
  set (cache' := inserted options key newValue (cache st)) in *.
  eexists _, _, _. split; [exact Hfirst|].
  assert (Imported.createGetKeyIndex options (keys cache')
            (Index.lookupKey options args2) = Some 0) as Hfront.
  { rewrite createGetKeyIndex_scan. unfold cache', inserted. cbn [keys].
    destruct (maxSize options); [lia|]. cbn. by rewrite Hmatch. }
  rewrite memoized_front by done. cbn [cache trace].
  assert (values cache' !! 0 = Some (cachedValue options key newValue)) as ->.
  { unfold cache', inserted. cbn [values].
    destruct (maxSize options); [lia|done]. }
  repeat split.
  cbn [trace]. rewrite !invocations_app. cbn [invocations].
  rewrite !invocations_app.
  rewrite !invocations_hookEvents by auto. by rewrite !app_nil_r.
Qed.

End Engine.

Lemma C1_witness :
  1 ≤ maxSize exampleOptions
  ∧ (∃ st, Index.run exampleOptions exampleFn Index.initial
             [Call [1]; Call [2];
              Settle (KArray [2]) (Rejected 0 : Settlement nat nat);
              Call [3]; Call [1]; Call [4]] = Some st
           ∧ length (values (cache st)) = size (cache st)
           ∧ size (cache st) ≤ maxSize exampleOptions)
  ∧ inLockStep exampleCache
  ∧ maxSize exampleOptions < S (size exampleCache)
  ∧ ∃ cache',
      Imported.orderByLru exampleCache (KArray [3]) (Plain 203)
                          (size exampleCache) (maxSize exampleOptions)
      = Some cache'
      ∧ keys cache' = take (maxSize exampleOptions)
                           (KArray [3] :: keys exampleCache)
      ∧ values cache' = take (maxSize exampleOptions)
                             (Plain 203 :: values exampleCache)
      ∧ size cache' = maxSize exampleOptions
      ∧ length (values cache') = maxSize exampleOptions.
Proof.
  assert (1 ≤ maxSize exampleOptions) as Hmax by (cbn; lia).
  destruct (C1_size_never_exceeds_maxSize (T := nat) (E := nat)
              exampleOptions exampleFn Hmax) as [Hrun Hevict].
  split; [exact Hmax|]. split; [apply Hrun|].
  assert (inLockStep exampleCache) as Hlen by reflexivity.
  assert (maxSize exampleOptions < S (size exampleCache)) as Hover
    by (cbn; lia).
  split; [exact Hlen|]. split; [exact Hover|]. by apply Hevict.
Defined.

Lemma C2_witness :
  1 ≤ maxSize exampleOptions
  ∧ inLockStep (cache (@Index.initial nat nat))
  ∧ Imported.createGetKeyIndex exampleOptions
      (keys (cache (@Index.initial nat nat)))
      (Index.lookupKey exampleOptions [3]) = None
  ∧ keyMatcher exampleOptions (Index.lookupKey exampleOptions [3])
                              (Index.lookupKey exampleOptions [3]) = true
  ∧ ∃ v st1 st2,
      Index.memoized exampleOptions exampleFn Index.initial [3]
      = Some (Some v, st1)
      ∧ Index.memoized exampleOptions exampleFn st1 [3] = Some (Some v, st2)
      ∧ invocations (trace st2)
        = invocations (trace (@Index.initial nat nat)) ++ [[3]]
      ∧ trace st2 = trace st1
                      ++ hookEvents (onCacheHit exampleOptions) CacheHit
                                    (cache st1)
      ∧ cache st2 = cache st1.
Proof.
  assert (1 ≤ maxSize exampleOptions) as Hmax by (cbn; lia).
  assert (inLockStep (cache (@Index.initial nat nat))) as Hlen by reflexivity.
  split; [exact Hmax|]. split; [exact Hlen|].
  split; [reflexivity|]. split; [reflexivity|].
  apply (C2_second_call_is_served_from_cache exampleOptions exampleFn
           Index.initial [3] [3] Hmax Hlen);
    reflexivity.
Defined.

Lemma C3_witness :
  (0 < 2 < length [10; 11; 12; 13]
   ∧ ∃ array', Utils.orderByLru [10; 11; 12; 13] 12 2 = Some array'
       ∧ array' !! 0 = Some 12
       ∧ (∀ j, j < 2 → array' !! S j = [10; 11; 12; 13] !! j)
       ∧ (∀ j, 2 < j → array' !! j = [10; 11; 12; 13] !! j)
       ∧ length array' = length [10; 11; 12; 13])
  ∧ (1 ≤ maxSize exampleOptions
     ∧ withinCapacity exampleOptions exampleCache
     ∧ ∃ v st',
         Index.memoized exampleOptions exampleFn (mkState exampleCache []) [1]
         = Some (Some v, st')
         ∧ values (cache st') !! 0 = Some v
         ∧ keys (cache st') !! 0 = keys exampleCache !! 1
         ∧ values (cache st') !! 0 = values exampleCache !! 1).
Proof.
  destruct (C3_promotion_moves_entry_to_front (A := nat) (R := nat))
    as (Harray & _ & Hcall).
  assert (0 < 2 < length [10; 11; 12; 13]) as Hin by (cbn; lia).
  assert (1 ≤ maxSize exampleOptions) as Hmax by (cbn; lia).
  assert (withinCapacity exampleOptions exampleCache) as Hinv
    by (split; [reflexivity | cbn; lia]).
  split; [split; [exact Hin | by apply Harray]|].
  split; [exact Hmax|]. split; [exact Hinv|].
  apply (Hcall exampleOptions exampleFn (mkState exampleCache []) [1] Hmax Hinv).
Defined.

Lemma C9_witness :
  1 ≤ maxSize exampleOptions
  ∧ inLockStep exampleCache
  ∧ ∃ v st',
      Index.memoized exampleOptions exampleFn (mkState exampleCache []) [1]
      = Some (v, st')
      ∧ trace st' = [] ++ hookEvents (onCacheHit exampleOptions) CacheHit
                                     exampleCache
                       ++ hookEvents (onCacheChange exampleOptions) CacheChange
                                     (cache st').
Proof.
  assert (1 ≤ maxSize exampleOptions) as Hmax by (cbn; lia).
  assert (inLockStep exampleCache) as Hlen by reflexivity.
  split; [exact Hmax|]. split; [exact Hlen|].
  apply (C9_hook_order exampleOptions exampleFn (mkState exampleCache []) [1]
           Hmax Hlen).
Defined.

(** ** Stored keys never match each other *)

Section Duplicates.
Context {A R : Type}.
Implicit Types (matches : Key A → Key A → bool) (allKeys : list (Key A)).
Implicit Types (options : Options A) (st : State A R) (key : Key A).

Lemma noDuplicates_take matches allKeys n :
  noDuplicates matches allKeys → noDuplicates matches (take n allKeys).
Proof.
  intros Hnodup i j ki kj [Hi _]%lookup_take_Some [Hj _]%lookup_take_Some.
  by apply Hnodup.
Qed.

Lemma noDuplicates_delete matches allKeys index :
  noDuplicates matches allKeys → noDuplicates matches (delete index allKeys).
Proof.
  intros Hnodup i j ki kj. rewrite !list_lookup_delete.
  intros Hi Hj Hij. apply (Hnodup _ _ _ _ Hi Hj).
  repeat case_decide; lia.
Qed.

Lemma noDuplicates_front matches allKeys index key :
  allKeys !! index = Some key →
  noDuplicates matches allKeys →
  noDuplicates matches (key :: delete index allKeys).
Proof.
  intros Hkey Hnodup.
  assert (∀ i k, (key :: delete index allKeys) !! i = Some k →
            allKeys !! (match i with
                        | 0 => index
                        | S i' => if decide (i' < index) then i' else S i'
                        end) = Some k) as Hmove.
  { intros [|i] k Hlookup.
    - cbn in Hlookup. by injection Hlookup as <-.
    - change (delete index allKeys !! i = Some k) in Hlookup.
      by rewrite list_lookup_delete in Hlookup. }
  intros i j ki kj Hi%Hmove Hj%Hmove Hij. apply (Hnodup _ _ _ _ Hi Hj).
  destruct i, j; repeat case_decide; lia.
Qed.

Lemma noDuplicates_insert matches allKeys key :
  symmetricMatcher matches →
  Utils.scanKeys matches allKeys key = None →
  noDuplicates matches allKeys →
  noDuplicates matches (key :: allKeys).
Proof.
  intros Hsym Hnone Hnodup. rewrite scanKeys_None in Hnone.
  intros [|i] [|j] ki kj Hi Hj Hij; cbn in Hi, Hj; [lia| | |].
  - injection Hi as <-. rewrite Hsym. apply Hnone.
    by apply list_elem_of_lookup_2 in Hj.
  - injection Hj as <-. apply Hnone. by apply list_elem_of_lookup_2 in Hi.
  - apply (Hnodup i j); [done..|lia].
Qed.

(** A call keeps the stored keys free of duplicates. *)
Lemma memoized_noDuplicates options (fn : Fn A R) st args v st' :
  symmetricMatcher (keyMatcher options) → 1 ≤ maxSize options →
  inLockStep (cache st) →
  noDuplicates (keyMatcher options) (keys (cache st)) →
  Index.memoized options fn st args = Some (v, st') →
  noDuplicates (keyMatcher options) (keys (cache st')).
Proof.
  intros Hsym Hmax Hlen Hnodup. call_cases options st args Hlen.
  - by intros [= _ <-].
  - intros [= _ <-]. unfold promoted. cbn [cache keys].
    by apply noDuplicates_take, noDuplicates_front.
  - intros [= _ <-]. unfold inserted. cbn [cache keys].
    apply noDuplicates_take, noDuplicates_insert; [done| |done].
    by rewrite <- createGetKeyIndex_scan.
Qed.

Lemma settle_noDuplicates {T E} options key st (outcome : Settlement T E) :
  noDuplicates (keyMatcher options) (keys (cache st)) →
  noDuplicates (keyMatcher options)
               (keys (cache (Imported.settle options key st outcome).1)).
Proof.
  intros Hnodup. unfold Imported.settle, Utils.settle.
  destruct outcome as [value|error].
  - unfold Utils.onFulfilled. rewrite !fire_eq. done.
  - unfold Utils.onRejected.
    destruct (Imported.createGetKeyIndex options (keys (cache st)) key);
      [|done].
    cbn [fst cache keys]. by apply noDuplicates_delete.
Qed.

Lemma run_noDuplicates {T E} options (fn : Fn A R) st
    (actions : list (Action A T E)) st' :
  symmetricMatcher (keyMatcher options) → 1 ≤ maxSize options →
  withinCapacity options (cache st) →
  noDuplicates (keyMatcher options) (keys (cache st)) →
  Index.run options fn st actions = Some st' →
  noDuplicates (keyMatcher options) (keys (cache st')).
Proof.
  intros Hsym Hmax. revert st.
  induction actions as [|a rest IH]; intros st Hinv Hnodup; cbn [Index.run].
  - by intros [= <-].
  - destruct (step_withinCapacity options fn st a Hmax Hinv)
      as (st1 & Hstep & Hinv1).
    rewrite Hstep. cbn [mbind option_bind]. apply IH; [done|].
    destruct a as [args|key outcome]; cbn [Index.step] in Hstep.
    + destruct (Index.memoized options fn st args) as [[v st2]|] eqn:Hcall;
        [|done].
      injection Hstep as <-.
      by apply (memoized_noDuplicates options fn st args v st2 Hsym Hmax
                  (proj1 Hinv)).
    + injection Hstep as <-. by apply settle_noDuplicates.
Qed.

(** Among keys free of duplicates, only a stored key itself can match it. *)
Lemma noDuplicates_only_match matches allKeys key index k :
  noDuplicates matches allKeys → key ∈ allKeys →
  allKeys !! index = Some k → matches k key = true →
  k = key ∧ ∀ j kj, allKeys !! j = Some kj → matches kj key = true → j = index.
Proof.
  intros Hnodup [p Hp]%list_elem_of_lookup_1 Hk Hm.
  assert (∀ j kj, allKeys !! j = Some kj → matches kj key = true → j = p)
    as Honly.
  { intros j kj Hj Hmj. destruct (decide (j = p)) as [|Hne]; [done|].
    rewrite (Hnodup j p kj key Hj Hp Hne) in Hmj. done. }
  assert (index = p) as -> by eauto. split; [congruence|]. eauto.
Qed.

End Duplicates.

(** ** The claims about settled promises *)

Section Promises.
Context {A R : Type}.
Implicit Types (options : Options A) (st : State A R) (key : Key A).
Implicit Types (fn : Fn A R) (args : list A).

(** C5: when the promise resolves, the continuation fires hit and then
    change (each if registered) on the store as it is at that time, whatever
    calls have reordered it since the handler was attached, leaves the store
    untouched and passes the resolved value on unchanged. *)
Theorem C5_fulfilled_fires_hit_then_change {T E} options key st
    (getKeyIndex : list (Key A) → Key A → option nat) (value : T) :
  Utils.settle (E := E) options getKeyIndex key st (Fulfilled value)
  = (mkState (cache st)
       (trace st ++ hookEvents (onCacheHit options) CacheHit (cache st)
                 ++ hookEvents (onCacheChange options) CacheChange (cache st)),
     Fulfilled value)
  ∧ Imported.settle (E := E) options key st (Fulfilled value)
    = Utils.settle options getKeyIndex key st (Fulfilled value).
Proof.
  unfold Imported.settle, Utils.settle, Utils.onFulfilled.
  rewrite !fire_eq. cbn [cache trace]. by rewrite <- app_assoc.
Qed.

Lemma rejected_removes_located {T E}
    (getKeyIndex : list (Key A) → Key A → option nat) options key st
    (error : E) :
  ∃ st',
    Utils.settle (T := T) options getKeyIndex key st (Rejected error)
    = (st', Rejected error)
    ∧ trace st' = trace st
    ∧ match getKeyIndex (keys (cache st)) key with
      | Some keyIndex =>
          keys (cache st') = delete keyIndex (keys (cache st))
          ∧ values (cache st') = delete keyIndex (values (cache st))
      | None => cache st' = cache st
      end.
Proof.
  unfold Utils.settle, Utils.onRejected.
  destruct (getKeyIndex (keys (cache st)) key); by eexists.
Qed.

(** C4: when the promise fails, the handler looks the captured key up with
    the key locator it was given, removes the located key and value from both
    sequences (or leaves the store alone when nothing is located) and
    re-raises the same failure.  In a state reached by any sequence of actions under a
    symmetric key matcher, with the failed entry's key still stored, the
    located entry is that key's, no stored key matches it afterwards, and a
    subsequent call with the same key invokes the wrapped function again and
    returns the new result. *)
Theorem C4_rejection_rolls_back {T E} options fn :
  (∀ (getKeyIndex : list (Key A) → Key A → option nat) st key (error : E),
     ∃ st',
       Utils.settle (T := T) options getKeyIndex key st (Rejected error)
       = (st', Rejected error)
       ∧ trace st' = trace st
       ∧ match getKeyIndex (keys (cache st)) key with
         | Some keyIndex =>
             keys (cache st') = delete keyIndex (keys (cache st))
             ∧ values (cache st') = delete keyIndex (values (cache st))
         | None => cache st' = cache st
         end)
  ∧ (∀ (actions : list (Action A T E)) st args (error : E),
       1 ≤ maxSize options →
       symmetricMatcher (keyMatcher options) →
       Index.run options fn Index.initial actions = Some st →
       Index.lookupKey options args ∈ keys (cache st) →
       let key := Index.lookupKey options args in
       let st' := (Imported.settle (T := T) options key st (Rejected error)).1 in
       (∀ keyIndex,
          Imported.createGetKeyIndex options (keys (cache st)) key
          = Some keyIndex →
          keys (cache st) !! keyIndex = Some key)
       ∧ Imported.createGetKeyIndex options (keys (cache st')) key = None
       ∧ ∃ st'',
           Index.memoized options fn st' args
           = Some (Some (cachedValue options key
                           (fn (invocations (trace st')) args)), st'')
           ∧ invocations (trace st'') = invocations (trace st') ++ [args]).
Proof.
  split; [intros getKeyIndex st key error; apply rejected_removes_located|].
  intros actions st args error Hmax Hsym Hrun Hstored key st'.
  destruct (run_withinCapacity options fn Index.initial actions Hmax
              (initial_withinCapacity options)) as (st0 & Hrun0 & Hinv).
  rewrite Hrun in Hrun0. injection Hrun0 as <-.
  assert (noDuplicates (keyMatcher options) (keys (cache st))) as Hnodup.
  { apply (run_noDuplicates options fn Index.initial actions st Hsym Hmax
             (initial_withinCapacity options)); [|done].
    intros i j ki kj Hi. by destruct i. }
  assert (withinCapacity options (cache st')) as Hinv'
    by by apply settle_withinCapacity.
  destruct (rejected_removes_located (T := T)
              (Imported.createGetKeyIndex options) options key st error)
    as (st1 & Hsettle & Htrace & Hstore).
  assert (st' = st1) as Hst'
    by (unfold st', Imported.settle; by rewrite Hsettle).
  assert (Imported.createGetKeyIndex options (keys (cache st')) key = None)
    as Hgone.
  { rewrite Hst'.
    destruct (Imported.createGetKeyIndex options (keys (cache st)) key)
      as [keyIndex|] eqn:Hfound.
    - destruct Hstore as [-> _].
      destruct (located_entry _ _ _ _ (proj1 Hinv) Hfound)
        as (k & v & Hk & _ & Hm).
      destruct (noDuplicates_only_match _ _ _ _ _ Hnodup Hstored Hk Hm)
        as [_ Honly].
      rewrite createGetKeyIndex_scan. apply scanKeys_None.
      intros s [j Hj]%list_elem_of_lookup_1.
      rewrite list_lookup_delete in Hj.
      destruct (keyMatcher options s key) eqn:Hs; [|done].
      apply (Honly _ _ Hj) in Hs. case_decide; lia.
    - by rewrite Hstore. }
  split; [|split; [exact Hgone|]].
  - intros keyIndex Hfound.
    destruct (located_entry _ _ _ _ (proj1 Hinv) Hfound)
      as (k & v & Hk & _ & Hm).
    by destruct (noDuplicates_only_match _ _ _ _ _ Hnodup Hstored Hk Hm)
      as [-> _].
  - rewrite memoized_miss by (done || apply Hinv').
    eexists. split; [done|]. cbn [trace].
    rewrite invocations_app. cbn [invocations]. rewrite invocations_app.
    rewrite !invocations_hookEvents by auto. done.
Qed.

End Promises.

(** ** The claims about keys and construction *)

Section Keys.
Context {A R : Type}.
Implicit Types (options : Options A) (key keysToMatch : Key A).

(** C7: with an [isMatchingKey] predicate configured, the key locator
    returns the first index whose stored key the predicate accepts against
    the whole key looked up, and [-1] exactly when the predicate rejects
    every stored key; the equality strategy plays no part. *)
Theorem C7_whole_key_mode options (matches : Key A → Key A → bool)
    (allKeys : list (Key A)) keysToMatch :
  isMatchingKey options = Some matches →
  keyMatcher options = matches
  ∧ (∀ index,
       Imported.createGetKeyIndex options allKeys keysToMatch = Some index ↔
       ∃ key, allKeys !! index = Some key
              ∧ matches key keysToMatch = true
              ∧ ∀ j earlier, j < index → allKeys !! j = Some earlier →
                             matches earlier keysToMatch = false)
  ∧ (Imported.createGetKeyIndex options allKeys keysToMatch = None ↔
     ∀ key, key ∈ allKeys → matches key keysToMatch = false).
Proof.
  intros Hconfigured.
  assert (keyMatcher options = matches) as Hmatcher
    by (unfold keyMatcher; by rewrite Hconfigured).
  split; [done|]. rewrite createGetKeyIndex_scan, Hmatcher. split.
  - intros index. apply scanKeys_Some.
  - apply scanKeys_None.
Qed.

(** C8 (as amended): the memoized callable looks up the output of
    [transformKey] as returned, a sequence or not, and stores it as the key
    of a new entry; [createGetTransformedKey] returns a sequence output as
    it is and wraps any other output into a single-element sequence, but the
    memoized callable does not go through it. *)
Theorem C8_transformed_key_is_looked_up_as_returned options
    (transform : list A → Key A) (args : list A) :
  transformKey options = Some transform →
  Index.lookupKey options args = transform args
  ∧ (∀ (fn : Fn A R), 1 ≤ maxSize options →
       ∃ v st', Index.memoized options fn Index.initial args = Some (v, st')
                ∧ keys (cache st') = [transform args])
  ∧ (∀ elems, transform args = KArray elems →
       Utils.createGetTransformedKey transform args = KArray elems)
  ∧ (∀ a indexed, transform args = KValue a indexed →
       Utils.createGetTransformedKey transform args = KArray [a]).
Proof.
  intros Hconfigured.
  assert (Index.lookupKey options args = transform args) as Hkey.
  { unfold Index.lookupKey, Index.shouldCloneArguments, Index.slice.
    rewrite Hconfigured. done. }
  split; [done|]. split; [|split].
  - intros fn Hmax.
    rewrite memoized_miss; [|done|done|by rewrite createGetKeyIndex_scan].
    eexists _, _. split; [done|]. unfold inserted. cbn [cache keys].
    rewrite Hkey. destruct (maxSize options) as [|m]; [lia|].
    cbn. by rewrite take_nil.
  - intros elems Hout. unfold Utils.createGetTransformedKey. by rewrite Hout.
  - intros a indexed Hout. unfold Utils.createGetTransformedKey.
    by rewrite Hout.
Qed.

(** C10: the construction function returns an input that is already a
    memoized callable as it is, whatever the options; what it returns for any
    input is a memoized callable, so constructing from it again returns
    it. *)
Theorem C10_construction_is_idempotent (strictEquals : A → A → bool)
    (fn : JsValue A R) (options : StandardOptions A) :
  (Imported.isMemoized fn = true →
   Index.createMemoizedFunction strictEquals fn options = Returned fn)
  ∧ (∀ out (options' : StandardOptions A),
       Index.createMemoizedFunction strictEquals fn options = Returned out →
       Imported.isMemoized out = true
       ∧ Index.createMemoizedFunction strictEquals out options'
         = Returned out).
Proof.
  assert (∀ (v : JsValue A R) o,
            Imported.isMemoized v = true →
            Index.createMemoizedFunction strictEquals v o = Returned v)
    as Hsame.
  { intros v o Hmemoized. unfold Index.createMemoizedFunction.
    by rewrite Hmemoized. }
  split; [apply Hsame|]. intros out options' Hout.
  assert (Imported.isMemoized out = true) as Hmemoized.
  { unfold Index.createMemoizedFunction in Hout.
    destruct (Imported.isMemoized fn) eqn:Hfn.
    - by injection Hout as <-.
    - destruct fn as [|c]; [done|]. by injection Hout as <-. }
  split; [done|]. by apply Hsame.
Qed.

End Keys.

Lemma C4_witness :
  1 ≤ maxSize promiseOptions
  ∧ symmetricMatcher (keyMatcher promiseOptions)
  ∧ Index.run promiseOptions exampleFn Index.initial
      [Call [1]; (Call [2] : Action nat nat nat)] = Some promiseState
  ∧ Index.lookupKey promiseOptions [1] ∈ keys (cache promiseState)
  ∧ (∀ keyIndex,
       Imported.createGetKeyIndex promiseOptions (keys (cache promiseState))
         (Index.lookupKey promiseOptions [1]) = Some keyIndex →
       keys (cache promiseState) !! keyIndex
       = Some (Index.lookupKey promiseOptions [1]))
  ∧ Imported.createGetKeyIndex promiseOptions
      (keys (cache (Imported.settle (T := nat) promiseOptions
                      (Index.lookupKey promiseOptions [1]) promiseState
                      (Rejected 5)).1))
      (Index.lookupKey promiseOptions [1]) = None
  ∧ ∃ st'',
      Index.memoized promiseOptions exampleFn
        (Imported.settle (T := nat) promiseOptions
           (Index.lookupKey promiseOptions [1]) promiseState (Rejected 5)).1
        [1]
      = Some (Some (cachedValue promiseOptions
                      (Index.lookupKey promiseOptions [1])
                      (exampleFn
                         (invocations
                            (trace (Imported.settle (T := nat) promiseOptions
                                      (Index.lookupKey promiseOptions [1])
                                      promiseState (Rejected 5)).1))
                         [1])), st'')
      ∧ invocations (trace st'')
        = invocations
            (trace (Imported.settle (T := nat) promiseOptions
                      (Index.lookupKey promiseOptions [1]) promiseState
                      (Rejected 5)).1) ++ [[1]].
Proof.
  assert (1 ≤ maxSize promiseOptions) as Hmax by (cbn; lia).
  assert (symmetricMatcher (keyMatcher promiseOptions)) as Hsym
    by (apply areKeysEqual_symmetric, Nat.eqb_sym).
  assert (Index.run promiseOptions exampleFn Index.initial
            [Call [1]; (Call [2] : Action nat nat nat)] = Some promiseState)
    as Hrun by reflexivity.
  assert (Index.lookupKey promiseOptions [1] ∈ keys (cache promiseState))
    as Hstored by (right; left).
  split; [exact Hmax|]. split; [exact Hsym|]. split; [exact Hrun|].
  split; [exact Hstored|].
  exact (proj2 (C4_rejection_rolls_back (T := nat) (E := nat)
                  promiseOptions exampleFn)
           [Call [1]; Call [2]] promiseState [1] 5 Hmax Hsym Hrun Hstored).
Defined.

Lemma C7_witness :
  isMatchingKey wholeKeyOptions = Some sameLength
  ∧ keyMatcher wholeKeyOptions = sameLength
  ∧ (∀ index,
       Imported.createGetKeyIndex wholeKeyOptions
         [KArray [1; 2]; KArray [7]] (KArray [9]) = Some index ↔
       ∃ key, [KArray [1; 2]; KArray [7]] !! index = Some key
              ∧ sameLength key (KArray [9]) = true
              ∧ ∀ j earlier, j < index →
                  [KArray [1; 2]; KArray [7]] !! j = Some earlier →
                  sameLength earlier (KArray [9]) = false)
  ∧ (Imported.createGetKeyIndex wholeKeyOptions
       [KArray [1; 2]; KArray [7]] (KArray [9]) = None ↔
     ∀ key, key ∈ [KArray [1; 2]; KArray [7]] →
            sameLength key (KArray [9]) = false).
Proof.
  split; [reflexivity|].
  apply (C7_whole_key_mode wholeKeyOptions sameLength
           [KArray [1; 2]; KArray [7]] (KArray [9])).
  reflexivity.
Defined.

(** C8, as stated, fails: with [transformKey] returning the first argument,
    a number, the key looked up for the arguments [7] is the number itself
    and not the single-element sequence that [createGetTransformedKey] would
    give; it is stored unwrapped, and the next call, with [8], matches it
    element-wise (neither has a [length]) and is served the result for [7]
    without invoking the wrapped function. *)
Lemma C8_counterexample :
  transformKey transformOptions = Some firstArgument
  ∧ Index.lookupKey transformOptions [7] = KValue 7 None
  ∧ Utils.createGetTransformedKey firstArgument [7] = KArray [7]
  ∧ Index.lookupKey transformOptions [7]
    ≠ Utils.createGetTransformedKey firstArgument [7]
  ∧ Index.run transformOptions exampleFn Index.initial
      [Call [7]; (Call [8] : Action nat nat nat)]
    = Some (mkState (mkCache [KValue 7 None] [Plain 7]) [Invoked [7]]).
Proof.
  repeat split; try reflexivity. discriminate.
Qed.

Lemma C8_witness :
  transformKey transformOptions = Some firstArgument
  ∧ Index.lookupKey transformOptions [7] = firstArgument [7]
  ∧ (∀ fn : Fn nat nat, 1 ≤ maxSize transformOptions →
       ∃ v st', Index.memoized transformOptions fn Index.initial [7]
                = Some (v, st')
                ∧ keys (cache st') = [firstArgument [7]])
  ∧ (∀ elems, firstArgument [7] = KArray elems →
       Utils.createGetTransformedKey firstArgument [7] = KArray elems)
  ∧ (∀ a indexed, firstArgument [7] = KValue a indexed →
       Utils.createGetTransformedKey firstArgument [7] = KArray [a]).
Proof.
  split; [reflexivity|].
  apply (C8_transformed_key_is_looked_up_as_returned (R := nat)
           transformOptions firstArgument [7]).
  reflexivity.
Defined.

Lemma C10_witness :
  Index.createMemoizedFunction Nat.eqb
    (AFunction (mkCallable exampleFn None)) noOptions
  = Returned (AFunction (mkCallable exampleFn
                (Some (Index.normalize Nat.eqb noOptions, Index.emptyCache))))
  ∧ Imported.isMemoized
      (AFunction (mkCallable exampleFn
         (Some (Index.normalize Nat.eqb noOptions, Index.emptyCache))))
    = true
  ∧ Index.createMemoizedFunction Nat.eqb
      (AFunction (mkCallable exampleFn
         (Some (Index.normalize Nat.eqb noOptions, Index.emptyCache))))
      exampleStandardOptions
    = Returned (AFunction (mkCallable exampleFn
                  (Some (Index.normalize Nat.eqb noOptions,
                         Index.emptyCache)))).
Proof.
  split; [reflexivity|].
  apply (proj2 (C10_construction_is_idempotent Nat.eqb
                  (AFunction (mkCallable exampleFn None)) noOptions)).
  reflexivity.
Defined.

(** ** The scenarios of the specification, run on the model *)

(** With [maxSize] 2 the calls A, B, A, C leave the store as [C, A]: the
    second call with A promotes it, so B is the entry the call with C
    evicts. *)
Example scenario_promote_then_evict :
  cache <$> Index.run exampleOptions exampleFn Index.initial
              [Call [1]; Call [2]; Call [1]; (Call [3] : Action nat nat nat)]
  = Some (mkCache [KArray [3]; KArray [1]] [Plain 203; Plain 1]).
Proof. reflexivity. Qed.

(** Right after the first insertion of a callable built without options
    ([maxSize] 1) the store is one key and one value. *)
Example scenario_first_insertion :
  cache <$> Index.run (Index.normalize Nat.eqb noOptions) exampleFn
              Index.initial [(Call [4; 5] : Action nat nat nat)]
  = Some (mkCache [KArray [4; 5]] [Plain 9]).
Proof. reflexivity. Qed.

(** Two calls without arguments share one cache slot: the wrapped function
    runs once. *)
Example scenario_zero_arguments :
  Index.run exampleOptions exampleFn Index.initial
    [Call []; (Call [] : Action nat nat nat)]
  = Some (mkState (mkCache [KArray []] [Plain 0])
            [Invoked [];
             CacheAdd (mkCache [KArray []] [Plain 0]);
             CacheChange (mkCache [KArray []] [Plain 0]);
             CacheHit (mkCache [KArray []] [Plain 0])]).
Proof. reflexivity. Qed.

(** A promise cached for [1] resolves after a call with [2] has taken the
    front: hit and change are fired on the store as it is then. *)
Example scenario_resolution_after_reordering :
  trace <$> Index.run observedPromiseOptions exampleFn Index.initial
              [Call [1]; Call [2];
               Settle (KArray [1]) (Fulfilled 9 : Settlement nat nat)]
  = Some [Invoked [1];
          CacheChange (mkCache [KArray [1]] [Chained (Plain 1) (KArray [1])]);
          Invoked [2];
          CacheChange (cache promiseState);
          CacheHit (cache promiseState);
          CacheChange (cache promiseState)].
Proof. reflexivity. Qed.

(** A promise cached for [1] fails: its entry is removed, and the next call
    with [1] invokes the wrapped function again. *)
Example scenario_rejection :
  Index.run promiseOptions exampleFn Index.initial
    [Call [1]; Call [2];
     Settle (KArray [1]) (Rejected 5 : Settlement nat nat); Call [1]]
  = Some (mkState
            (mkCache [KArray [1]; KArray [2]]
                     [Chained (Plain 201) (KArray [1]);
                      Chained (Plain 102) (KArray [2])])
            [Invoked [1]; Invoked [2]; Invoked [1]]).
Proof. reflexivity. Qed.

(** The array loop of [src/utils.js] on its own knows no capacity: placing a
    value at the end index grows the array by one. *)
Example scenario_array_loop_grows :
  Utils.orderByLru [10; 11; 12] 99 3 = Some [99; 10; 11; 12].
Proof. reflexivity. Qed.

(** * Further properties of the code *)

(** ** SameValueZero and the element-wise matcher *)

Section Equalities.
Context {A : Type}.
Implicit Types (isEqual strictEquals : A → A → bool) (key : Key A).

(** X1: [isSameValueZero] holds between every value and itself, also a value
    that [===] does not find equal to itself; it agrees with [===] on every
    value that is strictly equal to itself; and it is symmetric and
    transitive whenever [===] is. *)
Theorem X1_isSameValueZero_equivalence strictEquals :
  (∀ x, Utils.isSameValueZero strictEquals x x = true)
  ∧ (∀ x y, strictEquals x x = true →
       Utils.isSameValueZero strictEquals x y = strictEquals x y)
  ∧ ((∀ x y, strictEquals x y = strictEquals y x) →
     ∀ x y, Utils.isSameValueZero strictEquals x y
            = Utils.isSameValueZero strictEquals y x)
  ∧ ((∀ x y, strictEquals x y = strictEquals y x) →
     (∀ x y z, strictEquals x y = true → strictEquals y z = true →
               strictEquals x z = true) →
     ∀ x y z, Utils.isSameValueZero strictEquals x y = true →
              Utils.isSameValueZero strictEquals y z = true →
              Utils.isSameValueZero strictEquals x z = true).
Proof.
  unfold Utils.isSameValueZero. repeat split.
  - intros x. by destruct (strictEquals x x).
  - intros x y ->. cbn. by destruct (strictEquals x y).
  - intros Hsym x y. rewrite (Hsym x y). f_equal. apply andb_comm.
  - intros Hsym Htrans x y z Hxy Hyz.
    assert (∀ a b, strictEquals a b = true → strictEquals a a = true)
      as Hself.
    { intros a b Hab. apply (Htrans a b a); [done|]. by rewrite Hsym. }
    apply orb_true_iff in Hxy as [Hxy|[Hx Hy]%andb_true_iff];
      apply orb_true_iff in Hyz as [Hyz|[Hy' Hz]%andb_true_iff].
    + by rewrite (Htrans x y z).
    + rewrite (Hself y x) in Hy'; [done|]. by rewrite Hsym.
    + by rewrite (Hself y z) in Hy.
    + rewrite Hx, Hz. apply orb_true_r.
Qed.

Lemma allEqual_reflexive isEqual (elems : list A) :
  (∀ x, isEqual x x = true) → Utils.allEqual isEqual elems elems = true.
Proof.
  intros Hrefl. induction elems as [|x elems IH]; cbn; [done|].
  by rewrite Hrefl.
Qed.

Lemma lengthsDiffer_reflexive (l : option nat) : Utils.lengthsDiffer l l = false.
Proof. destruct l as [n|]; cbn; [|done]. by rewrite Nat.eqb_refl. Qed.

Lemma lengthsDiffer_elems (key1 key2 : Key A) :
  Utils.lengthsDiffer (Utils.keyLength key1) (Utils.keyLength key2) = false →
  Utils.keyLength key1 = Utils.keyLength key2
  ∧ length (Utils.keyElems key1) = length (Utils.keyElems key2).
Proof.
  destruct key1 as [elems1|a1 [elems1|]], key2 as [elems2|a2 [elems2|]];
    cbn; try done;
    intros Hsame; apply negb_false_iff, Nat.eqb_eq in Hsame;
    by rewrite Hsame.
Qed.

Lemma areKeysEqual_true isEqual (key1 key2 : Key A) :
  Utils.createAreKeysEqual isEqual key1 key2 = true ↔
  Utils.lengthsDiffer (Utils.keyLength key1) (Utils.keyLength key2) = false
  ∧ Utils.allEqual isEqual (Utils.keyElems key1) (Utils.keyElems key2) = true.
Proof.
  unfold Utils.createAreKeysEqual.
  destruct (Utils.lengthsDiffer _ _); [|tauto].
  split; [done|]. by intros [Himpossible _].
Qed.

Lemma areKeysEqual_reflexive isEqual key :
  (∀ x, isEqual x x = true) → Utils.createAreKeysEqual isEqual key key = true.
Proof.
  intros Hrefl. apply areKeysEqual_true.
  split; [apply lengthsDiffer_reflexive|by apply allEqual_reflexive].
Qed.

Lemma areKeysEqual_transitive isEqual (key1 key2 key3 : Key A) :
  (∀ x y z, isEqual x y = true → isEqual y z = true → isEqual x z = true) →
  Utils.createAreKeysEqual isEqual key1 key2 = true →
  Utils.createAreKeysEqual isEqual key2 key3 = true →
  Utils.createAreKeysEqual isEqual key1 key3 = true.
Proof.
  intros Htrans.
  intros [Hdiff12 Hall12]%areKeysEqual_true [Hdiff23 Hall23]%areKeysEqual_true.
  apply lengthsDiffer_elems in Hdiff12 as [Hlen12 Helems12].
  apply lengthsDiffer_elems in Hdiff23 as [Hlen23 Helems23].
  apply areKeysEqual_true. split.
  - rewrite Hlen12, Hlen23. apply lengthsDiffer_reflexive.
  - rewrite allEqual_true in Hall12, Hall23 |- * by congruence.
    intros index x z Hx Hz.
    destruct (lookup_lt_is_Some_2 (Utils.keyElems key2) index) as [y Hy].
    { apply lookup_lt_Some in Hx. lia. }
    apply (Htrans x y z); eauto.
Qed.

(** X2: the element-wise key matcher inherits the properties of the
    equality strategy: when [isEqual] is reflexive every key (an array or any
    other value) matches itself, when it is symmetric the order of the two
    keys does not matter, and when it is transitive matching is transitive. *)
Theorem X2_areKeysEqual_inherits_equivalence isEqual :
  ((∀ x, isEqual x x = true) →
   ∀ key, Utils.createAreKeysEqual isEqual key key = true)
  ∧ ((∀ x y, isEqual x y = isEqual y x) →
     ∀ key1 key2, Utils.createAreKeysEqual isEqual key1 key2
                  = Utils.createAreKeysEqual isEqual key2 key1)
  ∧ ((∀ x y z, isEqual x y = true → isEqual y z = true → isEqual x z = true) →
     ∀ key1 key2 key3,
       Utils.createAreKeysEqual isEqual key1 key2 = true →
       Utils.createAreKeysEqual isEqual key2 key3 = true →
       Utils.createAreKeysEqual isEqual key1 key3 = true).
Proof.
  split; [|split].
  - intros Hrefl key. by apply areKeysEqual_reflexive.
  - intros Hsym. by apply areKeysEqual_symmetric.
  - intros Htrans key1 key2 key3. by apply areKeysEqual_transitive.
Qed.

Lemma scanKeys_ext (matches1 matches2 : Key A → Key A → bool)
    (allKeys : list (Key A)) (key1 key2 : Key A) :
  (∀ k, k ∈ allKeys → matches1 k key1 = matches2 k key2) →
  Utils.scanKeys matches1 allKeys key1 = Utils.scanKeys matches2 allKeys key2.
Proof.
  induction allKeys as [|k rest IH]; intros Hsame; cbn; [done|].
  rewrite (Hsame k) by left. rewrite IH; [done|].
  intros k' Hin. apply Hsame. by right.
Qed.

(** X3: a key without a [length] (a number, a boolean) is located by its
    shape alone: the lookup gives the same index for any two such keys and
    under any two equality strategies, namely the first stored key without a
    [length]; two such keys always match, and such a key never matches an
    array. *)
Theorem X3_keys_without_length_all_match isEqual :
  (∀ a b, Utils.createAreKeysEqual isEqual
            (KValue a None) (KValue b None) = true)
  ∧ (∀ a elems,
       Utils.createAreKeysEqual isEqual (KValue a None) (KArray elems) = false
       ∧ Utils.createAreKeysEqual isEqual (KArray elems) (KValue a None)
         = false)
  ∧ (∀ (isEqual' : A → A → bool) (allKeys : list (Key A)) a b,
       Utils.createGetKeyIndex isEqual allKeys (KValue a None)
       = Utils.createGetKeyIndex isEqual' allKeys (KValue b None)).
Proof.
  split; [done|]. split; [done|].
  intros isEqual' allKeys a b. unfold Utils.createGetKeyIndex.
  apply scanKeys_ext. intros k _.
  by destruct k as [elems|c [elems|]].
Qed.

(** X4: the key locator of [src/utils.js] returns the smallest index whose
    stored key matches element-wise, an index inside the list, and [-1]
    exactly when no stored key matches, as on an empty list. *)
Theorem X4_getKeyIndex_first_match isEqual (allKeys : list (Key A)) key :
  (∀ index,
     Utils.createGetKeyIndex isEqual allKeys key = Some index ↔
     index < length allKeys
     ∧ ∃ stored, allKeys !! index = Some stored
         ∧ Utils.createAreKeysEqual isEqual stored key = true
         ∧ ∀ j earlier, j < index → allKeys !! j = Some earlier →
                        Utils.createAreKeysEqual isEqual earlier key = false)
  ∧ (Utils.createGetKeyIndex isEqual allKeys key = None ↔
     ∀ stored, stored ∈ allKeys →
               Utils.createAreKeysEqual isEqual stored key = false)
  ∧ Utils.createGetKeyIndex isEqual [] key = None.
Proof.
  unfold Utils.createGetKeyIndex. split; [|split; [apply scanKeys_None|done]].
  intros index. rewrite scanKeys_Some. split.
  - intros (stored & Hstored & Hrest). split; [|by exists stored].
    by apply lookup_lt_Some in Hstored.
  - by intros [_ Hfound].
Qed.

(** X5: under a symmetric and transitive equality strategy, two keys that
    match each other are located at the same index of any list of stored
    keys, or both at none. *)
Theorem X5_matching_keys_locate_alike isEqual (allKeys : list (Key A))
    (key1 key2 : Key A) :
  (∀ x y, isEqual x y = isEqual y x) →
  (∀ x y z, isEqual x y = true → isEqual y z = true → isEqual x z = true) →
  Utils.createAreKeysEqual isEqual key1 key2 = true →
  Utils.createGetKeyIndex isEqual allKeys key1
  = Utils.createGetKeyIndex isEqual allKeys key2.
Proof.
  intros Hsym Htrans Hmatch. unfold Utils.createGetKeyIndex.
  apply scanKeys_ext. intros k _.
  destruct (Utils.createAreKeysEqual isEqual k key2) eqn:Hk2.
  - apply (areKeysEqual_transitive isEqual k key2 key1 Htrans Hk2).
    by rewrite (areKeysEqual_symmetric isEqual Hsym).
  - destruct (Utils.createAreKeysEqual isEqual k key1) eqn:Hk1; [|done].
    by rewrite (areKeysEqual_transitive isEqual k key1 key2 Htrans Hk1 Hmatch)
      in Hk2.
Qed.

(** X6: what [createGetTransformedKey] returns is always an array, so it
    always has a [length]; wrapping a transform that is already wrapped
    changes nothing. *)
Theorem X6_getTransformedKey_always_array (transform : list A → Key A)
    (args : list A) :
  (∃ elems, Utils.createGetTransformedKey transform args = KArray elems)
  ∧ is_Some (Utils.keyLength (Utils.createGetTransformedKey transform args))
  ∧ Utils.createGetTransformedKey
      (Utils.createGetTransformedKey transform) args
    = Utils.createGetTransformedKey transform args.
Proof.
  unfold Utils.createGetTransformedKey.
  destruct (transform args) as [elems|a indexed]; cbn; eauto.
Qed.

End Equalities.

(** ** The array loop and the promise handler of [src/utils.js] on their own *)

Section ArrayLoop.
Context {A R : Type}.
Implicit Types (isEqual : A → A → bool) (key : Key A) (cache : Cache A R).

(** X7: for a starting index up to the array's length, [orderByLru] loses
    exactly the element at the starting index and puts the value in front of
    the others, which keep their order.  With starting index 0 that is the
    first element, overwritten in place (an empty array becomes the value
    alone); with the starting index at the length nothing is lost and the
    array grows by one. *)
Theorem X7_orderByLru_drops_the_source_slot {X} (array : list X) (value : X) :
  (∀ startingIndex, startingIndex ≤ length array →
     Utils.orderByLru array value startingIndex
     = Some (value :: delete startingIndex array))
  ∧ Utils.orderByLru array value 0 = Some (value :: drop 1 array)
  ∧ Utils.orderByLru array value (length array) = Some (value :: array)
  ∧ (∀ startingIndex array', startingIndex < length array →
       Utils.orderByLru array value startingIndex = Some array' →
       length array' = length array).
Proof.
  split; [intros; by apply orderByLru_le|]. split; [|split].
  - rewrite orderByLru_le by lia. by destruct array.
  - rewrite orderByLru_le by lia. by rewrite delete_beyond.
  - intros startingIndex array' Hlt. rewrite orderByLru_le by lia.
    intros [= <-]. rewrite length_delete_cons. by rewrite decide_True.
Qed.

(** X8: moving the element found at the starting index to the front
    rearranges the array: nothing is lost and nothing is duplicated. *)
Theorem X8_orderByLru_permutes {X} (array : list X) (value : X) startingIndex :
  array !! startingIndex = Some value →
  ∃ array', Utils.orderByLru array value startingIndex = Some array'
            ∧ array' ≡ₚ array.
Proof.
  intros Hvalue. rewrite orderByLru_le
    by (apply lookup_lt_Some in Hvalue; lia).
  eexists. split; [done|]. symmetry. by apply delete_Permutation.
Qed.

(** X9: a key placed by [orderByLru] is what the key locator finds first:
    after the key and its value have been placed in the two arrays at the
    same starting index, looking the key up gives index 0, where the value
    is, provided the key matches itself. *)
Theorem X9_placed_key_is_located_at_front isEqual key
    (allKeys : list (Key A)) (allValues : list (Value A R))
    (value : Value A R) startingIndex :
  Utils.createAreKeysEqual isEqual key key = true →
  startingIndex ≤ length allKeys → startingIndex ≤ length allValues →
  ∃ keys' values',
    Utils.orderByLru allKeys key startingIndex = Some keys'
    ∧ Utils.orderByLru allValues value startingIndex = Some values'
    ∧ Utils.createGetKeyIndex isEqual keys' key = Some 0
    ∧ values' !! 0 = Some value.
Proof.
  intros Hself Hkeys Hvalues. rewrite !orderByLru_le by done.
  eexists _, _. repeat split.
  unfold Utils.createGetKeyIndex. cbn. by rewrite Hself.
Qed.

(** X10: a rejection undoes an insertion.  After a key and a value have
    joined the store in front, and [setPromiseHandler] has replaced the value
    by the derived promise, the rejection handler restores the store exactly
    as it was before and re-raises the failure, provided the key matches
    itself and the store is otherwise untouched in between. *)
Theorem X10_rejection_undoes_insertion {T E} (options : Options A) isEqual
    cache key (value : Value A R) (events : list (Event A R)) (error : E) :
  Utils.createAreKeysEqual isEqual key key = true →
  ∃ keys' values' cache',
    Utils.orderByLru (keys cache) key (length (keys cache)) = Some keys'
    ∧ Utils.orderByLru (values cache) value (length (values cache))
      = Some values'
    ∧ Utils.setPromiseHandler (mkCache keys' values') = Some cache'
    ∧ keys cache' !! 0 = Some key
    ∧ values cache' !! 0 = Some (Chained value key)
    ∧ Utils.settle (T := T) options (Utils.createGetKeyIndex isEqual) key
        (mkState cache' events) (Rejected error)
      = (mkState cache events, Rejected error).
Proof.
  intros Hself. rewrite !orderByLru_le, !delete_beyond by lia.
  exists (key :: keys cache), (value :: values cache),
    (mkCache (key :: keys cache) (Chained value key :: values cache)).
  split; [done|]. split; [done|]. split.
  { unfold Utils.setPromiseHandler.
    cbn [keys values lookup list_lookup mbind option_bind].
    by rewrite array_set_0. }
  split; [done|]. split; [done|].
  unfold Utils.settle, Utils.onRejected, Utils.createGetKeyIndex.
  cbn. rewrite Hself. cbn. by destruct cache.
Qed.

End ArrayLoop.

Lemma X1_witness :
  (∀ x y, numberEquals x y = numberEquals y x)
  ∧ (∀ x y z, numberEquals x y = true → numberEquals y z = true →
              numberEquals x z = true)
  ∧ numberEquals None None = false
  ∧ Utils.isSameValueZero numberEquals None None = true
  ∧ (∀ x y, Utils.isSameValueZero numberEquals x y
            = Utils.isSameValueZero numberEquals y x)
  ∧ (∀ x y z, Utils.isSameValueZero numberEquals x y = true →
              Utils.isSameValueZero numberEquals y z = true →
              Utils.isSameValueZero numberEquals x z = true).
Proof.
  assert (∀ x y, numberEquals x y = numberEquals y x) as Hsym.
  { intros [a|] [b|]; cbn; [apply Nat.eqb_sym|done..]. }
  assert (∀ x y z, numberEquals x y = true → numberEquals y z = true →
                   numberEquals x z = true) as Htrans.
  { intros [a|] [b|] [c|]; cbn; try done.
    intros ->%Nat.eqb_eq ->%Nat.eqb_eq. apply Nat.eqb_refl. }
  destruct (X1_isSameValueZero_equivalence numberEquals)
    as (Hrefl & _ & Hsym' & Htrans').
  split; [exact Hsym|]. split; [exact Htrans|]. split; [reflexivity|].
  split; [apply Hrefl|]. split; [by apply Hsym'|by apply Htrans'].
Defined.

Lemma X2_witness :
  (∀ x, Nat.eqb x x = true)
  ∧ (∀ x y, Nat.eqb x y = Nat.eqb y x)
  ∧ (∀ x y z, Nat.eqb x y = true → Nat.eqb y z = true → Nat.eqb x z = true)
  ∧ Utils.createAreKeysEqual Nat.eqb (KArray [1; 2]) (KArray [1; 2]) = true
  ∧ Utils.createAreKeysEqual Nat.eqb (KArray [1; 2]) (KValue 7 (Some [1; 2]))
    = Utils.createAreKeysEqual Nat.eqb (KValue 7 (Some [1; 2])) (KArray [1; 2])
  ∧ (Utils.createAreKeysEqual Nat.eqb (KArray [1; 2]) (KValue 7 (Some [1; 2]))
     = true →
     Utils.createAreKeysEqual Nat.eqb (KValue 7 (Some [1; 2])) (KArray [1; 2])
     = true →
     Utils.createAreKeysEqual Nat.eqb (KArray [1; 2]) (KArray [1; 2]) = true).
Proof.
  assert (∀ x y z, Nat.eqb x y = true → Nat.eqb y z = true →
                   Nat.eqb x z = true) as Htrans.
  { intros x y z ->%Nat.eqb_eq ->%Nat.eqb_eq. apply Nat.eqb_refl. }
  destruct (X2_areKeysEqual_inherits_equivalence Nat.eqb)
    as (Hrefl & Hsym & Htrans').
  split; [apply Nat.eqb_refl|]. split; [apply Nat.eqb_sym|].
  split; [exact Htrans|].
  split; [apply Hrefl, Nat.eqb_refl|].
  split; [apply Hsym, Nat.eqb_sym|]. by apply Htrans'.
Defined.

Lemma X5_witness :
  (∀ x y, Nat.eqb x y = Nat.eqb y x)
  ∧ (∀ x y z, Nat.eqb x y = true → Nat.eqb y z = true → Nat.eqb x z = true)
  ∧ Utils.createAreKeysEqual Nat.eqb (KArray [1]) (KValue 7 (Some [1])) = true
  ∧ Utils.createGetKeyIndex Nat.eqb [KArray [2]; KArray [1]] (KArray [1])
    = Utils.createGetKeyIndex Nat.eqb [KArray [2]; KArray [1]]
        (KValue 7 (Some [1])).
Proof.
  assert (∀ x y z, Nat.eqb x y = true → Nat.eqb y z = true →
                   Nat.eqb x z = true) as Htrans.
  { intros x y z ->%Nat.eqb_eq ->%Nat.eqb_eq. apply Nat.eqb_refl. }
  split; [apply Nat.eqb_sym|]. split; [exact Htrans|].
  split; [reflexivity|].
  apply (X5_matching_keys_locate_alike Nat.eqb [KArray [2]; KArray [1]]
           (KArray [1]) (KValue 7 (Some [1])) Nat.eqb_sym Htrans).
  reflexivity.
Defined.

Lemma X7_witness :
  2 < length [10; 11; 12; 13]
  ∧ Utils.orderByLru [10; 11; 12; 13] 99 2 = Some [99; 10; 11; 13]
  ∧ length [99; 10; 11; 13] = length [10; 11; 12; 13].
Proof.
  assert (2 < length [10; 11; 12; 13]) as Hlt by (cbn; lia).
  assert (Utils.orderByLru [10; 11; 12; 13] 99 2 = Some [99; 10; 11; 13])
    as Hrun by reflexivity.
  split; [exact Hlt|]. split; [exact Hrun|].
  exact (proj2 (proj2 (proj2
           (X7_orderByLru_drops_the_source_slot [10; 11; 12; 13] 99)))
           2 [99; 10; 11; 13] Hlt Hrun).
Defined.

Lemma X8_witness :
  [10; 11; 12; 13] !! 2 = Some 12
  ∧ ∃ array', Utils.orderByLru [10; 11; 12; 13] 12 2 = Some array'
              ∧ array' ≡ₚ [10; 11; 12; 13].
Proof.
  split; [reflexivity|].
  apply (X8_orderByLru_permutes [10; 11; 12; 13] 12 2). reflexivity.
Defined.

Lemma X9_witness :
  Utils.createAreKeysEqual Nat.eqb (KArray [3]) (KArray [3]) = true
  ∧ 2 ≤ length (keys exampleCache) ∧ 2 ≤ length (values exampleCache)
  ∧ ∃ keys' values',
      Utils.orderByLru (keys exampleCache) (KArray [3]) 2 = Some keys'
      ∧ Utils.orderByLru (values exampleCache) (Plain 203) 2 = Some values'
      ∧ Utils.createGetKeyIndex Nat.eqb keys' (KArray [3]) = Some 0
      ∧ values' !! 0 = Some (Plain 203).
Proof.
  assert (2 ≤ length (keys exampleCache)) as Hkeys by (cbn; lia).
  assert (2 ≤ length (values exampleCache)) as Hvalues by (cbn; lia).
  split; [reflexivity|]. split; [exact Hkeys|]. split; [exact Hvalues|].
  apply (X9_placed_key_is_located_at_front Nat.eqb (KArray [3])
           (keys exampleCache) (values exampleCache) (Plain 203) 2);
    [reflexivity|exact Hkeys|exact Hvalues].
Defined.

Lemma X10_witness :
  Utils.createAreKeysEqual Nat.eqb (KArray [3]) (KArray [3]) = true
  ∧ ∃ keys' values' cache',
      Utils.orderByLru (keys exampleCache) (KArray [3])
                       (length (keys exampleCache)) = Some keys'
      ∧ Utils.orderByLru (values exampleCache) (Plain 203)
                         (length (values exampleCache)) = Some values'
      ∧ Utils.setPromiseHandler (mkCache keys' values') = Some cache'
      ∧ keys cache' !! 0 = Some (KArray [3])
      ∧ values cache' !! 0 = Some (Chained (Plain 203) (KArray [3]))
      ∧ Utils.settle (T := nat) promiseOptions
          (Utils.createGetKeyIndex Nat.eqb) (KArray [3])
          (mkState cache' []) (Rejected 5)
        = (mkState exampleCache [], Rejected 5).
Proof.
  split; [reflexivity|].
  apply (X10_rejection_undoes_insertion (T := nat) promiseOptions Nat.eqb
           exampleCache (KArray [3]) (Plain 203) [] 5).
  reflexivity.
Defined.

(** ** The memoized callable over whole runs *)

Section Runs.
Context {A R : Type}.
Implicit Types (cache : Cache A R) (st : State A R) (options : Options A).
Implicit Types (fn : Fn A R) (args : list A) (key : Key A).

Lemma memoized_invocations options fn st args :
  1 ≤ maxSize options → inLockStep (cache st) →
  ∃ v st',
    Index.memoized options fn st args = Some (v, st')
    ∧ invocations (trace st')
      = invocations (trace st)
          ++ match Imported.createGetKeyIndex options (keys (cache st))
                     (Index.lookupKey options args) with
             | Some _ => []
             | None => [args]
             end.
Proof.
  intros Hmax Hlen. call_cases options st args Hlen;
    eexists _, _; (split; [done|]); cbn [trace].
  - rewrite invocations_app. by rewrite invocations_hookEvents by auto.
  - rewrite !invocations_app. by rewrite !invocations_hookEvents by auto.
  - rewrite invocations_app. cbn [invocations].
    rewrite invocations_app. by rewrite !invocations_hookEvents by auto.
Qed.

(** X11: a call invokes the wrapped function exactly when its key is
    located nowhere in the store, once and with the call's arguments; a call
    whose key is located invokes nothing and returns the value stored at the
    located index. *)
Theorem X11_invokes_exactly_on_miss options fn st args :
  1 ≤ maxSize options → inLockStep (cache st) →
  ∃ v st',
    Index.memoized options fn st args = Some (v, st')
    ∧ invocations (trace st')
      = invocations (trace st)
          ++ match Imported.createGetKeyIndex options (keys (cache st))
                     (Index.lookupKey options args) with
             | Some _ => []
             | None => [args]
             end
    ∧ match Imported.createGetKeyIndex options (keys (cache st))
              (Index.lookupKey options args) with
      | Some index => v = values (cache st) !! index
      | None =>
          v = Some (cachedValue options (Index.lookupKey options args)
                      (fn (invocations (trace st)) args))
      end.
Proof.
  intros Hmax Hlen. call_cases options st args Hlen.
  - eexists _, _. split; [done|]. cbn [trace].
    rewrite invocations_app. rewrite invocations_hookEvents by auto.
    by rewrite Hvalue0.
  - eexists _, _. split; [done|]. cbn [trace].
    rewrite !invocations_app. rewrite !invocations_hookEvents by auto.
    by rewrite Hvalue0.
  - eexists _, _. split; [done|]. cbn [trace].
    rewrite invocations_app. cbn [invocations].
    rewrite invocations_app. rewrite !invocations_hookEvents by auto. done.
Qed.

Lemma settle_invocations {T E} options key st (outcome : Settlement T E) :
  invocations (trace (Imported.settle options key st outcome).1)
  = invocations (trace st).
Proof.
  unfold Imported.settle, Utils.settle.
  destruct outcome as [value|error].
  - unfold Utils.onFulfilled. rewrite !fire_eq. cbn [fst trace cache].
    rewrite !invocations_app. rewrite !invocations_hookEvents by auto.
    by rewrite !app_nil_r.
  - unfold Utils.onRejected.
    by destruct (Imported.createGetKeyIndex options (keys (cache st)) key).
Qed.

Lemma run_invocations {T E} options fn st (actions : list (Action A T E)) :
  1 ≤ maxSize options → withinCapacity options (cache st) →
  ∃ st' invoked,
    Index.run options fn st actions = Some st'
    ∧ invocations (trace st') = invocations (trace st) ++ invoked
    ∧ invoked `sublist_of` callArgs actions.
Proof.
  intros Hmax. revert st.
  induction actions as [|a rest IH]; intros st Hinv; cbn [Index.run].
  - exists st, []. by rewrite app_nil_r.
  - destruct (step_withinCapacity options fn st a Hmax Hinv)
      as (st1 & Hstep & Hinv1).
    rewrite Hstep. cbn [mbind option_bind].
    destruct (IH st1 Hinv1) as (st' & invoked & Hrun & Htrace & Hsub).
    destruct a as [args|key outcome]; cbn [Index.step callArgs] in *.
    + destruct (memoized_invocations options fn st args Hmax (proj1 Hinv))
        as (v & st2 & Hcall & Hinvoked).
      rewrite Hcall in Hstep. injection Hstep as <-.
      rewrite Hinvoked, <- app_assoc in Htrace.
      destruct (Imported.createGetKeyIndex options (keys (cache st))
                  (Index.lookupKey options args)).
      * exists st', invoked. repeat split; [done..|]. by apply sublist_cons.
      * exists st', (args :: invoked). repeat split; [done..|].
        by apply sublist_skip.
    + injection Hstep as <-. rewrite settle_invocations in Htrace.
      by exists st', invoked.
Qed.

(** X12: over any sequence of calls and settlements on a fresh callable,
    the wrapped function is invoked only with arguments of calls, in the
    order of the calls and at most once for each call; a settlement never
    invokes it. *)
Theorem X12_invocations_follow_the_calls {T E} options fn
    (actions : list (Action A T E)) :
  1 ≤ maxSize options →
  ∃ st, Index.run options fn Index.initial actions = Some st
        ∧ invocations (trace st) `sublist_of` callArgs actions
        ∧ length (invocations (trace st)) ≤ length (callArgs actions).
Proof.
  intros Hmax.
  destruct (run_invocations options fn Index.initial actions Hmax
              (initial_withinCapacity options))
    as (st & invoked & Hrun & Htrace & Hsub).
  exists st. split; [done|]. cbn in Htrace. rewrite Htrace.
  split; [done|]. by apply sublist_length.
Qed.

(** X13: under a symmetric key matcher no two keys of the store match each
    other, in any state a fresh callable reaches through calls and
    settlements: a lookup can never be ambiguous. *)
Theorem X13_stored_keys_never_match_each_other {T E} options fn
    (actions : list (Action A T E)) :
  1 ≤ maxSize options → symmetricMatcher (keyMatcher options) →
  ∃ st, Index.run options fn Index.initial actions = Some st
        ∧ noDuplicates (keyMatcher options) (keys (cache st)).
Proof.
  intros Hmax Hsym.
  destruct (run_withinCapacity options fn Index.initial actions Hmax
              (initial_withinCapacity options)) as (st & Hrun & _).
  exists st. split; [done|].
  apply (run_noDuplicates options fn Index.initial actions st Hsym Hmax
           (initial_withinCapacity options)); [|done].
  intros i j ki kj Hi. by destruct i.
Qed.




Lemma zip_delete {X Y} (l : list X) (k : list Y) index :
  zip (delete index l) (delete index k) = delete index (zip l k).
Proof.
  revert l k. induction index as [|index IH]; intros [|x l] [|y k]; cbn;
    try done.
  - by destruct l.
  - by rewrite IH.
Qed.

(** X16: a call whose key is located keeps every entry: the pairs of key
    and value after the call are the pairs before it, rearranged, and the
    store has the size it had. *)
Theorem X16_hit_keeps_every_entry options fn st args located :
  1 ≤ maxSize options → withinCapacity options (cache st) →
  Imported.createGetKeyIndex options (keys (cache st))
                             (Index.lookupKey options args) = Some located →
  ∃ v st',
    Index.memoized options fn st args = Some (v, st')
    ∧ zip (keys (cache st')) (values (cache st'))
      ≡ₚ zip (keys (cache st)) (values (cache st))
    ∧ size (cache st') = size (cache st).
Proof.
  intros Hmax [Hlen Hsize] Hlocated.
  call_cases options st args Hlen; [by eexists _, _|..|done].
  eexists _, _. split; [done|]. unfold promoted, size. cbn [cache keys values].
  unfold inLockStep, size in *.
  assert (S index < length (keys (cache st))) as Hlt
    by by apply lookup_lt_Some in Hkey0.
  rewrite !take_ge
    by (rewrite length_delete_cons; case_decide; lia).
  split.
  - cbn [zip zip_with]. fold (zip (delete (S index) (keys (cache st)))
                                  (delete (S index) (values (cache st)))).
    rewrite zip_delete. symmetry. apply delete_Permutation.
    by apply lookup_zip_Some.
  - rewrite length_delete_cons. by rewrite decide_True.
Qed.

(** X17: when a call that computes a promise is followed at once by the
    failure of that promise, the new entry is gone again and the store holds
    the first [maxSize - 1] of the entries it had before the call: all of
    them if there was room, all but the least recently used if the store was
    full. *)
Theorem X17_failed_call_costs_at_most_the_last_entry {T E} options fn st args
    (error : E) :
  1 ≤ maxSize options → inLockStep (cache st) → isPromise options = true →
  Imported.createGetKeyIndex options (keys (cache st))
                             (Index.lookupKey options args) = None →
  keyMatcher options (Index.lookupKey options args)
                     (Index.lookupKey options args) = true →
  ∃ v st1,
    Index.memoized options fn st args = Some (v, st1)
    ∧ keys (cache (Imported.settle (T := T) options
                     (Index.lookupKey options args) st1 (Rejected error)).1)
      = take (maxSize options - 1) (keys (cache st))
    ∧ values (cache (Imported.settle (T := T) options
                       (Index.lookupKey options args) st1 (Rejected error)).1)
      = take (maxSize options - 1) (values (cache st))
    ∧ (size (cache st) < maxSize options →
       cache (Imported.settle (T := T) options
                (Index.lookupKey options args) st1 (Rejected error)).1
       = cache st).
Proof.
  intros Hmax Hlen Hpromise Hmiss Hself.
  rewrite memoized_miss by done. eexists _, _. split; [done|].
  unfold Imported.settle, Utils.settle, Utils.onRejected.
  rewrite createGetKeyIndex_scan. unfold inserted. cbn [cache keys values].
  destruct (maxSize options) as [|m] eqn:Hm; [lia|].
  cbn [take Utils.scanKeys]. rewrite Hself. cbn [fst cache keys values].
  replace (S m - 1) with m by lia. split; [done|]. split; [done|].
  intros Hroom. unfold inLockStep, size in *.
  cbn [delete list_delete]. rewrite !take_ge by lia. by destruct (cache st).
Qed.

End Runs.

(** ** Construction *)

Section Construction.
Context {A R : Type}.

(** X15: the construction function throws [TypeError] exactly for an input
    that is not a function; for a function that is not memoized yet it
    returns a callable that wraps that function, starts with an empty store
    and carries the normalized options, in which a missing [maxSize] is 1 and
    a missing [isPromise] is [false]. *)
Theorem X15_construction_throws_only_for_non_functions
    (strictEquals : A → A → bool) (fn : JsValue A R)
    (options : StandardOptions A) :
  (Index.createMemoizedFunction strictEquals fn options = ThrewTypeError ↔
   fn = NotAFunction)
  ∧ (∀ c, fn = AFunction c → properties c = None →
       Index.createMemoizedFunction strictEquals fn options
       = Returned (AFunction
           (mkCallable (wrapped c)
              (Some (Index.normalize strictEquals options,
                     Index.emptyCache))))
       ∧ size (@Index.emptyCache A R) = 0
       ∧ (opt_maxSize options = None →
          maxSize (Index.normalize strictEquals options) = 1)
       ∧ (opt_isPromise options = None →
          isPromise (Index.normalize strictEquals options) = false)).
Proof.
  split.
  - unfold Index.createMemoizedFunction.
    destruct fn as [|c]; [done|]. cbn.
    by destruct (bool_decide (is_Some (properties c))).
  - intros c -> Hplain. unfold Index.createMemoizedFunction. cbn.
    rewrite Hplain. cbn. repeat split.
    + by intros ->.
    + by intros ->.
Qed.

End Construction.

Lemma X11_witness :
  1 ≤ maxSize exampleOptions
  ∧ inLockStep exampleCache
  ∧ ∃ v st',
      Index.memoized exampleOptions exampleFn (mkState exampleCache []) [1]
      = Some (v, st')
      ∧ invocations (trace st') = [] ++ []
      ∧ v = values exampleCache !! 1.
Proof.
  assert (1 ≤ maxSize exampleOptions) as Hmax by (cbn; lia).
  assert (inLockStep exampleCache) as Hlen by reflexivity.
  split; [exact Hmax|]. split; [exact Hlen|].
  apply (X11_invokes_exactly_on_miss exampleOptions exampleFn
           (mkState exampleCache []) [1] Hmax Hlen).
Defined.

Lemma X12_witness :
  1 ≤ maxSize exampleOptions
  ∧ ∃ st,
      Index.run exampleOptions exampleFn Index.initial
        [Call [1]; Call [2]; Call [1];
         Settle (KArray [1]) (Fulfilled 0 : Settlement nat nat); Call [3]]
      = Some st
      ∧ invocations (trace st) `sublist_of` [[1]; [2]; [1]; [3]]
      ∧ length (invocations (trace st)) ≤ 4.
Proof.
  assert (1 ≤ maxSize exampleOptions) as Hmax by (cbn; lia).
  split; [exact Hmax|].
  apply (X12_invocations_follow_the_calls exampleOptions exampleFn
           [Call [1]; Call [2]; Call [1];
            Settle (KArray [1]) (Fulfilled 0 : Settlement nat nat); Call [3]]
           Hmax).
Defined.

Lemma X13_witness :
  1 ≤ maxSize exampleOptions
  ∧ symmetricMatcher (keyMatcher exampleOptions)
  ∧ ∃ st,
      Index.run exampleOptions exampleFn Index.initial
        [Call [1]; Call [2]; (Call [1] : Action nat nat nat); Call [3]]
      = Some st
      ∧ noDuplicates (keyMatcher exampleOptions) (keys (cache st)).
Proof.
  assert (1 ≤ maxSize exampleOptions) as Hmax by (cbn; lia).
  assert (symmetricMatcher (keyMatcher exampleOptions)) as Hsym
    by (apply areKeysEqual_symmetric, Nat.eqb_sym).
  split; [exact Hmax|]. split; [exact Hsym|].
  apply (X13_stored_keys_never_match_each_other exampleOptions exampleFn
           [Call [1]; Call [2]; (Call [1] : Action nat nat nat); Call [3]]
           Hmax Hsym).
Defined.


Lemma X15_witness :
  properties (mkCallable exampleFn None) = None
  ∧ Index.createMemoizedFunction Nat.eqb
      (AFunction (mkCallable exampleFn None)) noOptions
    = Returned (AFunction
        (mkCallable exampleFn
           (Some (Index.normalize Nat.eqb noOptions, Index.emptyCache))))
  ∧ opt_maxSize noOptions = None
  ∧ maxSize (Index.normalize Nat.eqb noOptions) = 1
  ∧ (Index.createMemoizedFunction Nat.eqb (@NotAFunction nat nat) noOptions
     = ThrewTypeError ↔ @NotAFunction nat nat = NotAFunction).
Proof.
  assert (properties (mkCallable exampleFn None) = None) as Hplain
    by reflexivity.
  destruct (X15_construction_throws_only_for_non_functions Nat.eqb
              (AFunction (mkCallable exampleFn None)) noOptions)
    as [_ Hbuilt].
  destruct (Hbuilt (mkCallable exampleFn None) eq_refl Hplain)
    as (Hreturned & _ & Hmax & _).
  split; [exact Hplain|]. split; [exact Hreturned|].
  split; [reflexivity|]. split; [by apply Hmax|].
  apply (X15_construction_throws_only_for_non_functions Nat.eqb
           (@NotAFunction nat nat) noOptions).
Defined.

Lemma X16_witness :
  1 ≤ maxSize exampleOptions
  ∧ withinCapacity exampleOptions exampleCache
  ∧ Imported.createGetKeyIndex exampleOptions (keys exampleCache)
      (Index.lookupKey exampleOptions [1]) = Some 1
  ∧ ∃ v st',
      Index.memoized exampleOptions exampleFn (mkState exampleCache []) [1]
      = Some (v, st')
      ∧ zip (keys (cache st')) (values (cache st'))
        ≡ₚ zip (keys exampleCache) (values exampleCache)
      ∧ size (cache st') = size exampleCache.
Proof.
  assert (1 ≤ maxSize exampleOptions) as Hmax by (cbn; lia).
  assert (withinCapacity exampleOptions exampleCache) as Hinv
    by (split; [reflexivity | cbn; lia]).
  split; [exact Hmax|]. split; [exact Hinv|]. split; [reflexivity|].
  apply (X16_hit_keeps_every_entry exampleOptions exampleFn
           (mkState exampleCache []) [1] 1 Hmax Hinv).
  reflexivity.
Defined.

Lemma X17_witness :
  1 ≤ maxSize promiseOptions
  ∧ inLockStep (cache promiseState)
  ∧ isPromise promiseOptions = true
  ∧ Imported.createGetKeyIndex promiseOptions (keys (cache promiseState))
      (Index.lookupKey promiseOptions [3]) = None
  ∧ keyMatcher promiseOptions (Index.lookupKey promiseOptions [3])
                              (Index.lookupKey promiseOptions [3]) = true
  ∧ ∃ v st1,
      Index.memoized promiseOptions exampleFn promiseState [3] = Some (v, st1)
      ∧ keys (cache (Imported.settle (T := nat) promiseOptions
                       (Index.lookupKey promiseOptions [3]) st1
                       (Rejected 5)).1)
        = take (maxSize promiseOptions - 1) (keys (cache promiseState))
      ∧ values (cache (Imported.settle (T := nat) promiseOptions
                         (Index.lookupKey promiseOptions [3]) st1
                         (Rejected 5)).1)
        = take (maxSize promiseOptions - 1) (values (cache promiseState))
      ∧ (size (cache promiseState) < maxSize promiseOptions →
         cache (Imported.settle (T := nat) promiseOptions
                  (Index.lookupKey promiseOptions [3]) st1 (Rejected 5)).1
         = cache promiseState).
Proof.
  assert (1 ≤ maxSize promiseOptions) as Hmax by (cbn; lia).
  assert (inLockStep (cache promiseState)) as Hlen by reflexivity.
  split; [exact Hmax|]. split; [exact Hlen|]. split; [reflexivity|].
  split; [reflexivity|]. split; [reflexivity|].
  apply (X17_failed_call_costs_at_most_the_last_entry (T := nat)
           promiseOptions exampleFn promiseState [3] 5 Hmax Hlen);
    reflexivity.
Defined.

(** ** Growth of the store and the add hook *)

Section Growth.
Context {A R : Type}.
Implicit Types (cache : Cache A R) (st : State A R) (options : Options A).
Implicit Types (fn : Fn A R) (args : list A) (key : Key A).

(** A property of states that every call and every settlement keep holds
    after every run. *)
Lemma run_preserves {T E} options fn (holds : State A R → Prop)
    (actions : list (Action A T E)) st :
  1 ≤ maxSize options →
  (∀ st args v st', inLockStep (cache st) → holds st →
     Index.memoized options fn st args = Some (v, st') → holds st') →
  (∀ st key (outcome : Settlement T E), holds st →
     holds (Imported.settle options key st outcome).1) →
  withinCapacity options (cache st) → holds st →
  ∃ st', Index.run options fn st actions = Some st' ∧ holds st'.
Proof.
  intros Hmax Hcall Hsettle. revert st.
  induction actions as [|a rest IH]; intros st Hinv Hholds; cbn [Index.run];
    [by exists st|].
  destruct (step_withinCapacity options fn st a Hmax Hinv)
    as (st1 & Hstep & Hinv1).
  rewrite Hstep. cbn [mbind option_bind]. apply IH; [done|].
  destruct a as [args|key outcome]; cbn [Index.step] in Hstep.
  - destruct (Index.memoized options fn st args) as [[v st2]|] eqn:Hrun;
      [|done].
    injection Hstep as <-. by apply (Hcall st args v st2 (proj1 Hinv)).
  - injection Hstep as <-. by apply Hsettle.
Qed.

Lemma addEvents_app (t1 t2 : list (Event A R)) :
  addEvents (t1 ++ t2) = addEvents t1 + addEvents t2.
Proof.
  induction t1 as [|[] t1 IH]; cbn; [done|done|by rewrite IH|done..].
Qed.

(** X18: over any sequence of calls and settlements on a fresh callable,
    the add hook, when registered, has fired exactly as often as the wrapped
    function has been invoked; hits and settlements never fire it. *)
Theorem X18_add_fires_once_per_invocation {T E} options fn
    (actions : list (Action A T E)) :
  1 ≤ maxSize options →
  ∃ st, Index.run options fn Index.initial actions = Some st
        ∧ addEvents (trace st)
          = if onCacheAdd options then length (invocations (trace st))
            else 0.
Proof.
  intros Hmax.
  apply (run_preserves options fn
           (λ st, addEvents (trace st)
                  = if onCacheAdd options
                    then length (invocations (trace st)) else 0));
    [done| | |apply initial_withinCapacity|by destruct (onCacheAdd options)].
  - intros st args v st' Hlen Hcount.
    call_cases options st args Hlen; intros [= _ <-]; cbn [trace];
      rewrite ?addEvents_app, ?invocations_app; cbn [addEvents invocations];
      rewrite ?addEvents_app, ?invocations_app, ?length_app, Hcount;
      unfold hookEvents;
      destruct (onCacheAdd options), (onCacheChange options),
        (onCacheHit options); cbn; lia.
  - intros st key outcome Hcount.
    unfold Imported.settle, Utils.settle.
    destruct outcome as [value|error].
    + unfold Utils.onFulfilled. rewrite !fire_eq. cbn [fst trace cache].
      rewrite ?addEvents_app, ?invocations_app, ?length_app, Hcount.
      unfold hookEvents.
      destruct (onCacheAdd options), (onCacheChange options),
        (onCacheHit options); cbn; lia.
    + unfold Utils.onRejected.
      by destruct (Imported.createGetKeyIndex options (keys (cache st)) key).
Qed.

(** X19: a call that computes puts its entry in front of the entries the
    store had, which keep their order; if the store was full, the entry that
    leaves is the one at the tail, the least recently used, so the store has
    [min maxSize (size + 1)] entries afterwards.  With [maxSize] 1, the
    default, the store then holds the new entry alone. *)
Theorem X19_insertion_evicts_only_the_tail options fn st args :
  1 ≤ maxSize options → withinCapacity options (cache st) →
  Imported.createGetKeyIndex options (keys (cache st))
                             (Index.lookupKey options args) = None →
  ∃ v st',
    Index.memoized options fn st args = Some (Some v, st')
    ∧ keys (cache st')
      = Index.lookupKey options args
          :: take (maxSize options - 1) (keys (cache st))
    ∧ values (cache st') = v :: take (maxSize options - 1) (values (cache st))
    ∧ size (cache st') = maxSize options `min` S (size (cache st))
    ∧ (maxSize options = 1 →
       keys (cache st') = [Index.lookupKey options args]
       ∧ values (cache st') = [v]).
Proof.
  intros Hmax [Hlen Hsize] Hmiss. rewrite memoized_miss by done.
  eexists _, _. split; [done|]. unfold inserted, size. cbn [cache keys values].
  destruct (maxSize options) as [|m]; [lia|]. cbn [take].
  replace (S m - 1) with m by lia.
  split; [done|]. split; [done|]. split.
  - cbn [length]. rewrite length_take. unfold size in Hsize. lia.
  - intros [= ->]. by rewrite !take_0.
Qed.

End Growth.

Lemma X18_witness :
  1 ≤ maxSize exampleOptions
  ∧ ∃ st,
      Index.run exampleOptions exampleFn Index.initial
        [Call [1]; Call [2]; Call [1];
         Settle (KArray [1]) (Fulfilled 0 : Settlement nat nat); Call [3]]
      = Some st
      ∧ addEvents (trace st)
        = if onCacheAdd exampleOptions
          then length (invocations (trace st)) else 0.
Proof.
  assert (1 ≤ maxSize exampleOptions) as Hmax by (cbn; lia).
  split; [exact Hmax|].
  apply (X18_add_fires_once_per_invocation exampleOptions exampleFn
           [Call [1]; Call [2]; Call [1];
            Settle (KArray [1]) (Fulfilled 0 : Settlement nat nat); Call [3]]
           Hmax).
Defined.

Lemma X19_witness :
  1 ≤ maxSize exampleOptions
  ∧ withinCapacity exampleOptions exampleCache
  ∧ Imported.createGetKeyIndex exampleOptions (keys exampleCache)
      (Index.lookupKey exampleOptions [3]) = None
  ∧ ∃ v st',
      Index.memoized exampleOptions exampleFn (mkState exampleCache []) [3]
      = Some (Some v, st')
      ∧ keys (cache st')
        = Index.lookupKey exampleOptions [3]
            :: take (maxSize exampleOptions - 1) (keys exampleCache)
      ∧ values (cache st')
        = v :: take (maxSize exampleOptions - 1) (values exampleCache)
      ∧ size (cache st')
        = maxSize exampleOptions `min` S (size exampleCache)
      ∧ (maxSize exampleOptions = 1 →
         keys (cache st') = [Index.lookupKey exampleOptions [3]]
         ∧ values (cache st') = [v]).
Proof.
  assert (1 ≤ maxSize exampleOptions) as Hmax by (cbn; lia).
  assert (withinCapacity exampleOptions exampleCache) as Hinv
    by (split; [reflexivity | cbn; lia]).
  split; [exact Hmax|]. split; [exact Hinv|]. split; [reflexivity|].
  apply (X19_insertion_evicts_only_the_tail exampleOptions exampleFn
           (mkState exampleCache []) [3] Hmax Hinv).
  reflexivity.
Defined.
